(** * fbxnano: the forum tree renderer and the Prosody shared-store adapter

    A shallow embedding of
      - [forum/templatetags/forum_extras.py]  ([make_tree]),
      - [prosodyauth/models.py]               ([Prosody.save], [User._get_lastlog],
                                               [User.xmpp_online]),
      - [prosodyauth/prosody/datastore.py]    ([ProsodyDatastore.get_data_store]),
    followed by the properties of the specification proved about it.

    Python integers are unbounded, so they are [Z].  Python [str] is [string].
    A Python [dict] with string keys is a [gmap string _].  Exceptions are an
    explicit outcome; local variables and object attributes that the code
    mutates are threaded through a small state-and-exception monad. *)

From Stdlib Require Import ZArith List Ascii String Lia Sorted.
From stdpp Require Import gmap strings list fin_maps.
From Equations Require Import Equations.
From Equations.Prop Require Import Logic.

Local Open Scope Z_scope.

(* ===================================================================== *)
(** * Part I: definitions                                                *)
(* ===================================================================== *)

(** ** Python runtime: exceptions and stateful computations *)

Module Py.

(** The exceptions that the modelled code can meet. *)
Inductive exception : Type :=
| IndexError      (* [l[-1]] or [l.pop()] on an empty list *)
| ValueError      (* [int(s)] on text that is not an integer literal *)
| TypeError       (* item assignment on [None] *)
| AttributeError  (* a method looked up on [None] *)
| IntegrityError. (* a uniqueness constraint of the table is violated *)

Inductive outcome (A : Type) : Type :=
| Ok (a : A)
| Raise (e : exception).
Arguments Ok {A} a.
Arguments Raise {A} e.

(** A computation over a mutable store [S]: the store survives a raise,
    as Python's locals and attributes do. *)
Definition M (S A : Type) : Type := S -> outcome A * S.

Definition ret {S A} (a : A) : M S A := fun s => (Ok a, s).

Definition raise {S A} (e : exception) : M S A := fun s => (Raise e, s).

Definition bind {S A B} (c : M S A) (k : A -> M S B) : M S B :=
  fun s =>
    match c s with
    | (Ok a, s') => k a s'
    | (Raise e, s') => (Raise e, s')
    end.

Definition get {S} : M S S := fun s => (Ok s, s).

Definition modify {S} (f : S -> S) : M S unit := fun s => (Ok tt, f s).

(** A computation that does not touch the store. *)
Definition lift {S A} (r : outcome A) : M S A := fun s => (r, s).

Definition exception_eqb (a b : exception) : bool :=
  match a, b with
  | IndexError, IndexError => true
  | ValueError, ValueError => true
  | TypeError, TypeError => true
  | AttributeError, AttributeError => true
  | IntegrityError, IntegrityError => true
  | _, _ => false
  end.

(** [try: body / except e: pass] *)
Definition try_except_pass {S} (body : M S unit) (e : exception) : M S unit :=
  fun s =>
    match body s with
    | (Raise e', s') => if exception_eqb e' e then (Ok tt, s') else (Raise e', s')
    | r => r
    end.

(** [for x in xs: body x] *)
Fixpoint for_each {S A} (xs : list A) (body : A -> M S unit) : M S unit :=
  match xs with
  | [] => ret tt
  | x :: xs' => bind (body x) (fun _ => for_each xs' body)
  end.

Declare Scope py_scope.
Delimit Scope py_scope with py.
Notation "x <- c ;; k" := (bind c (fun x => k))
  (at level 100, c at next level, right associativity) : py_scope.
Notation "c ;; k" := (bind c (fun _ => k))
  (at level 100, right associativity) : py_scope.

(** The double-quote character and the one-character string holding it. *)
Definition dquote : string := String (ascii_of_nat 34) EmptyString.

End Py.

(** ** forum/templatetags/forum_extras.py *)

Module Forum.
Import Py.

(** The attributes of a post that [make_tree] reads:
    [post.pk], [post.left], [post.right], [post.subject],
    [post.user.username], [post.topic.board.slug]. *)
Record Board : Type := { slug : string }.
Record Topic : Type := { board : Board }.
Record Author : Type := { username : string }.
Record Post : Type := {
  pk : Z;
  left : Z;
  right : Z;
  subject : string;
  user : Author;
  topic : Topic
}.

(** [post == current_post]: Django compares model instances by primary key;
    [current_post] defaults to [None], which equals no post. *)
Definition post_eq (post : Post) (current_post : option Post) : bool :=
  match current_post with
  | Some c => pk post =? pk c
  | None => false
  end.

(** The two helpers that [make_tree] imports and that live outside this
    module: [helpers.templatetags.frontend_extras.octicon] and
    [django.urls.reverse] (called with [kwargs={'board': ..., 'pk': ...}]). *)
Class Site : Type := {
  octicon : string -> string;
  reverse : string -> string -> Z -> string
}.

(** [html] is kept as the sequence of pieces that the code appends with
    [html += ...]; the returned string is their concatenation ([render]).
    There are three kinds of piece. *)
Inductive fragment : Type :=
| TreeOpen                             (* '<div class="post-tree">' *)
| PostLine (current : bool) (p : Post) (* '<div>...' for one post *)
| DivClose.                            (* '</div>' *)

(** The local variables of [make_tree]. *)
Record locals : Type := {
  html : list fragment;
  levels : list Z;
  depth : Z
}.

Definition html_add (fs : list fragment) : M locals unit :=
  modify (fun s => {| html := html s ++ fs; levels := levels s; depth := depth s |}).

(** The loop
<<
    while levels[-1] < post.left:
        html += '</div>'
        levels.pop()
        depth -= 1
>>
    Each round removes one element of [levels], which is the measure. *)
Equations? while_levels (post : Post) (s : locals) : outcome unit * locals
  by wf (length (levels s)) lt :=
  while_levels post s with inspect (last (levels s)) := {
    | exist _ None _ => (Raise IndexError, s)
    | exist _ (Some top) e with top <? left post => {
        | false => (Ok tt, s)
        | true =>
            while_levels post
              {| html := html s ++ [DivClose];
                 levels := removelast (levels s);
                 depth := depth s - 1 |} } }.
Proof.
  apply last_Some in e as [l' ->].
  rewrite removelast_last, length_app. simpl. lia.
Qed.

Section Renderer.
Context {site : Site}.

(** [line.format(icon=..., url=..., title=..., user=..., date='[date]')] *)
Definition format_line (current : bool) (post : Post) : string :=
  let icon := octicon "arrow-right" in
  let url := reverse "forum:post" (slug (board (topic post))) (pk post) in
  let title := subject post in
  let user_ := username (user post) in
  let date := "[date]" in
  if current
  then "<div>" +:+ icon +:+ title +:+ " by " +:+ user_ +:+ " on " +:+ date
  else "<div><a href=" +:+ dquote +:+ url +:+ dquote +:+ ">" +:+ title +:+ "</a> by "
         +:+ user_ +:+ " on " +:+ date.

Definition render_fragment (f : fragment) : string :=
  match f with
  | TreeOpen => "<div class=" +:+ dquote +:+ "post-tree" +:+ dquote +:+ ">"
  | PostLine current p => format_line current p
  | DivClose => "</div>"
  end.

Definition render (fs : list fragment) : string :=
  fold_right (fun f acc => render_fragment f +:+ acc) "" fs.
End Renderer.

(** The piece appended by [html += line.format(...)]. *)
Definition post_line (current_post : option Post) (post : Post) : fragment :=
  PostLine (post_eq post current_post) post.

(** The body of [for post in posts]. *)
Definition loop_body (current_post : option Post) (post : Post) : M locals unit :=
  (try_except_pass (while_levels post) IndexError ;;
   html_add [post_line current_post post] ;;
   if right post - left post >? 1
   then modify (fun s =>
          let levels' := levels s ++ [right post] in
          {| html := html s; levels := levels'; depth := Z.of_nat (length levels') |})
   else html_add [DivClose])%py.

Definition initial : locals :=
  {| html := [TreeOpen]; levels := []; depth := 0 |}.

(** The statements of [make_tree] up to the [return]. *)
Definition make_tree_body (posts : list Post) (current_post : option Post)
  : M locals unit :=
  (for_each posts (loop_body current_post) ;;
   s <- get ;;
   html_add (repeat DivClose (Z.to_nat (depth s))) ;;
   html_add [DivClose])%py.

(** The pieces of the returned string, in order. *)
Definition make_tree_html (posts : list Post) (current_post : option Post)
  : outcome (list fragment) :=
  match make_tree_body posts current_post initial with
  | (Ok _, s) => Ok (html s)
  | (Raise e, _) => Raise e
  end.

(** [mark_safe] only flags the string as safe markup. *)
Definition mark_safe (s : string) : string := s.

Definition make_tree {site : Site} (posts : list Post) (current_post : option Post)
  : outcome string :=
  match make_tree_html posts current_post with
  | Ok fs => Ok (mark_safe (render fs))
  | Raise e => Raise e
  end.

(** *** Vocabulary of the specification *)

Definition is_close (f : fragment) : bool :=
  match f with DivClose => true | _ => false end.

Definition is_open (f : fragment) : bool :=
  match f with DivClose => false | _ => true end.

(** Number of close tags and of open tags among the pieces. *)
Definition closes (fs : list fragment) : nat := length (List.filter is_close fs).
Definition opens (fs : list fragment) : nat := length (List.filter is_open fs).

Definition is_line (f : fragment) : bool :=
  match f with PostLine _ _ => true | _ => false end.

(** The lines of posts among the pieces, in order of emission. *)
Definition lines (fs : list fragment) : list fragment := List.filter is_line fs.

(** Containers of posts that are open after the pieces [fs]: those opened
    minus those closed (the wrapper is not counted). *)
Definition open_posts (fs : list fragment) : Z :=
  Z.of_nat (length (lines fs)) - Z.of_nat (closes fs).

(** Nested-set intervals. *)
Definition disjoint (a b : Post) : Prop := right a < left b \/ right b < left a.

Definition contains (a b : Post) : Prop := left a < left b /\ right b < right a.

Definition containsb (a b : Post) : bool := (left a <? left b) && (right b <? right a).

(** A well-formed nested-set sequence: [left < right] for each post, sorted
    by [left] ascending, and every pair of intervals nested or disjoint. *)
Definition well_formed (posts : list Post) : Prop :=
  Forall (fun p => left p < right p) posts /\
  Sorted (fun a b => left a <= left b) posts /\
  ForallOrdPairs (fun a b => disjoint a b \/ contains a b \/ contains b a) posts.

(** The ancestors of [p] among [posts]: the posts whose interval contains its. *)
Definition ancestors (posts : list Post) (p : Post) : list Post :=
  List.filter (fun q => containsb q p) posts.

(** Number of places of [s] where [pat] starts. *)
Fixpoint occurrences (pat s : string) : nat :=
  match s with
  | EmptyString => 0
  | String _ s' => (if String.prefix pat s then 1 else 0) + occurrences pat s'
  end.

(** The locals after the guarded loop
    [try: while levels[-1] < post.left: ... except IndexError: pass]
    has popped [n] boundaries, leaving [keep]: [n] close tags appended. *)
Definition closed_by (n : nat) (keep : list Z) (s : locals) : locals :=
  {| html := html s ++ repeat DivClose n;
     levels := keep;
     depth := depth s - Z.of_nat n |}.

(** The locals after the rest of the loop body, from the locals [s1] that
    the guarded loop left. *)
Definition after_post (current_post : option Post) (post : Post) (s1 : locals) : locals :=
  let line := post_line current_post post in
  if right post - left post >? 1
  then {| html := html s1 ++ [line];
          levels := levels s1 ++ [right post];
          depth := Z.of_nat (length (levels s1 ++ [right post])) |}
  else {| html := (html s1 ++ [line]) ++ [DivClose];
          levels := levels s1;
          depth := depth s1 |}.

(** No occurrence of [pat] starts in [a] and ends after it. *)
Definition ends_clear (pat a : string) : Prop :=
  forall b, occurrences pat (a +:+ b) = (occurrences pat a + occurrences pat b)%nat.

(** A check for it: each non-empty suffix of [a] either holds [pat] already
    or is not the beginning of [pat]. *)
Fixpoint suffix_clear (pat a : string) : bool :=
  match a with
  | EmptyString => true
  | String _ a' =>
      (String.prefix pat a || negb (String.prefix a pat)) && suffix_clear pat a'
  end.

(** Occurrences of [pat] inside the pieces, piece by piece. *)
Definition occurrences_in_pieces {site : Site} (pat : string) (fs : list fragment) : nat :=
  list_sum (map (fun f => occurrences pat (render_fragment f)) fs).

Definition is_tree_open (f : fragment) : bool :=
  match f with TreeOpen => true | _ => false end.

(** Occurrences of [pat] inside the formatted lines of [posts]. *)
Definition line_occurrences {site : Site} (pat : string) (current_post : option Post)
  (posts : list Post) : nat :=
  list_sum (map (fun p => occurrences pat (format_line (post_eq p current_post) p)) posts).

(** A line whose only [div] tag is the open tag that starts it. *)
Definition plain_line {site : Site} (current_post : option Post) (p : Post) : Prop :=
  occurrences "<div" (format_line (post_eq p current_post) p) = 1%nat /\
  occurrences "</div>" (format_line (post_eq p current_post) p) = 0%nat.

(** A site for examples: no icon markup, URLs of the form [/forum/<board>/]. *)
Definition example_site : Site :=
  {| octicon := fun _ => "";
     reverse := fun _ board_ _ => "/forum/" +:+ board_ +:+ "/" |}.

(** A post for examples, with the given boundaries and subject. *)
Definition example_post (l r : Z) (title : string) : Post :=
  {| pk := l; left := l; right := r; subject := title;
     user := {| username := "kromey" |};
     topic := {| board := {| slug := "general" |} |} |}.

(** [depth] and [levels] stay in step, and each post accounts for one
    more line and one more close tag, emitted or pending on the stack. *)
Record tally (cur : option Post) (posts : list Post) (s s' : locals) : Prop := {
  tally_depth : depth s' = Z.of_nat (length (levels s'));
  tally_lines : lines (html s') = lines (html s) ++ map (post_line cur) posts;
  tally_opens : opens (html s') = (opens (html s) + length posts)%nat;
  tally_closes :
    (closes (html s') + length (levels s') =
     closes (html s) + length (levels s) + length posts)%nat
}.

(** The test [post.right - post.left > 1] together with a threshold: the
    container of [q] was pushed and its boundary is not less than [x]. *)
Definition still_open (x : Z) (q : Post) : bool :=
  (right q - left q >? 1) && (x <=? right q).

(** The posts of [pre] whose containers are open once [pre] is processed. *)
Definition open_after (pre : list Post) : list Post :=
  match last pre with
  | None => []
  | Some p => List.filter (still_open (left p)) pre
  end.

(** The effect of one piece on the number of open containers of posts. *)
Definition delta (f : fragment) : Z :=
  match f with
  | TreeOpen => 0
  | PostLine _ _ => 1
  | DivClose => -1
  end.

(** Each post with the number of containers of posts open where its line
    starts, [d] being the number open before [fs]. *)
Fixpoint line_depths (d : Z) (fs : list fragment) : list (Post * Z) :=
  match fs with
  | [] => []
  | PostLine c p :: fs' => (p, d) :: line_depths (d + 1) fs'
  | f :: fs' => line_depths (d + delta f) fs'
  end.

(** The number of open containers of posts never drops below zero. *)
Fixpoint never_below (d : Z) (fs : list fragment) : Prop :=
  match fs with
  | [] => True
  | f :: fs' => 0 <= d + delta f /\ never_below (d + delta f) fs'
  end.

(** Two posts in sequence order in a well-formed sequence. *)
Definition in_order (a b : Post) : Prop :=
  left a < left b /\ (right a < left b \/ right b < right a).

(** What holds of the locals once the posts [pre], the first of the
    well-formed sequence [posts], have been processed. *)
Record threaded (posts : list Post) (cur : option Post) (pre : list Post)
  (s : locals) : Prop := {
  th_levels : levels s = map right (open_after pre);
  th_depth : depth s = Z.of_nat (length (levels s));
  th_open : open_posts (html s) = Z.of_nat (length (levels s));
  th_lines : lines (html s) = map (post_line cur) pre;
  th_depths :
    line_depths 0 (html s) = map (fun p => (p, Z.of_nat (length (ancestors posts p)))) pre;
  th_never_below : never_below 0 (html s)
}.

End Forum.



(** ** prosodyauth/models.py and prosodyauth/prosody/datastore.py *)

Module ProsodyAuth.
Import Py.

(** A row of the [prosody] table, which is also an instance of the [Prosody]
    model.  [pk] is Django's automatic primary key, [None] until the
    instance has been stored. *)
Record Prosody : Type := {
  pk : option Z;
  host : string;
  user : string;
  store : string;
  key : string;
  type : string;
  value : string
}.

(** The table, as the list of its rows in the order a query yields them. *)
Definition table : Type := list Prosody.

Definition with_type (self : Prosody) (t : string) : Prosody :=
  {| pk := pk self; host := host self; user := user self; store := store self;
     key := key self; type := t; value := value self |}.

Definition with_pk (self : Prosody) (i : Z) : Prosody :=
  {| pk := Some i; host := host self; user := user self; store := store self;
     key := key self; type := type self; value := value self |}.

(** [unique_together = (("user","store","key"),)] *)
Definition same_unique_key (a b : Prosody) : bool :=
  (user a =? user b)%string && (store a =? store b)%string && (key a =? key b)%string.

Definition has_pk (i : Z) (r : Prosody) : bool :=
  match pk r with
  | Some j => i =? j
  | None => false
  end.

Definition fresh_pk (db : table) : Z :=
  1 + fold_right (fun r acc => Z.max (default 0 (pk r)) acc) 0 db.

(** [models.Model.save]: UPDATE the row that has the instance's primary key
    when there is one, INSERT otherwise (giving a new instance the next
    primary key); the uniqueness constraint is checked against the other
    rows.  The store is the instance together with the table. *)
Definition Model_save : M (Prosody * table) unit :=
  fun '(self, db) =>
    match pk self with
    | Some i =>
        if existsb (has_pk i) db
        then
          if existsb (fun r => negb (has_pk i r) && same_unique_key r self) db
          then (Raise IntegrityError, (self, db))
          else (Ok tt, (self, map (fun r => if has_pk i r then self else r) db))
        else
          if existsb (fun r => same_unique_key r self) db
          then (Raise IntegrityError, (self, db))
          else (Ok tt, (self, db ++ [self]))
    | None =>
        if existsb (fun r => same_unique_key r self) db
        then (Raise IntegrityError, (self, db))
        else let self' := with_pk self (fresh_pk db) in (Ok tt, (self', db ++ [self']))
    end.

Definition set_self_type (t : string) : M (Prosody * table) unit :=
  modify (fun '(self, db) => (with_type self t, db)).

(** [Prosody.save] *)
Definition save : M (Prosody * table) unit :=
  (st <- get ;;
   let self := fst st in
   (if (store self =? "lastlog")%string && (key self =? "timestamp")%string
    then set_self_type "number"
    else if (store self =? "accounts")%string && (key self =? "iterations")%string
    then set_self_type "number"
    else if (store self =? "roster")%string
    then set_self_type "json"
    else if (key self =? "persistence")%string
    then set_self_type "boolean"
    else set_self_type "string") ;;
   Model_save)%py.

(** The rule table of the specification: an ordered list of
    (predicate, type) pairs, the first that holds decides, [string] when
    none does.  [save] is compared with it below. *)
Definition type_rules : list ((string -> string -> bool) * string) :=
  [ (fun store_ key_ => (store_ =? "lastlog")%string && (key_ =? "timestamp")%string, "number");
    (fun store_ key_ => (store_ =? "accounts")%string && (key_ =? "iterations")%string, "number");
    (fun store_ _ => (store_ =? "roster")%string, "json");
    (fun _ key_ => (key_ =? "persistence")%string, "boolean") ].

Fixpoint first_rule (rules : list ((string -> string -> bool) * string))
  (store_ key_ : string) : string :=
  match rules with
  | [] => "string"
  | (holds, t) :: rules' => if holds store_ key_ then t else first_rule rules' store_ key_
  end.

Definition derived_type (store_ key_ : string) : string :=
  first_rule type_rules store_ key_.

(** *** Text helpers *)

(** SQL [UPPER], on ASCII letters. *)
Definition upper_ascii (c : ascii) : ascii :=
  let n := nat_of_ascii c in
  if ((97 <=? n) && (n <=? 122))%nat then ascii_of_nat (n - 32) else c.

Fixpoint UPPER (s : string) : string :=
  match s with
  | EmptyString => EmptyString
  | String c s' => String (upper_ascii c) (UPPER s')
  end.

(** The [iexact] lookup: [UPPER(column) = UPPER(%s)]. *)
Definition iexact (column param : string) : bool :=
  (UPPER column =? UPPER param)%string.

(** ASCII white space, which [int] strips on both sides. *)
Definition is_space (c : ascii) : bool :=
  let n := nat_of_ascii c in
  ((n =? 32) || ((9 <=? n) && (n <=? 13)))%nat.

Fixpoint lstrip (s : string) : string :=
  match s with
  | EmptyString => EmptyString
  | String c s' => if is_space c then lstrip s' else s
  end.

Fixpoint rstrip (s : string) : string :=
  match s with
  | EmptyString => EmptyString
  | String c s' =>
      match rstrip s' with
      | EmptyString => if is_space c then EmptyString else String c EmptyString
      | r => String c r
      end
  end.

Definition digit_value (c : ascii) : option Z :=
  let n := nat_of_ascii c in
  if ((48 <=? n) && (n <=? 57))%nat then Some (Z.of_nat (n - 48)) else None.

(** Decimal digits, with single underscores allowed between digits. *)
Fixpoint parse_digits (acc : Z) (after_digit : bool) (s : string) : option Z :=
  match s with
  | EmptyString => if after_digit then Some acc else None
  | String c s' =>
      if (c =? "_")%char
      then if after_digit then parse_digits acc false s' else None
      else match digit_value c with
           | Some d => parse_digits (10 * acc + d) true s'
           | None => None
           end
  end.

(** Python's [int(text)] in base ten, on ASCII text. *)
Definition int (text : string) : outcome Z :=
  let body := rstrip (lstrip text) in
  let parsed :=
    match body with
    | String "+" digits => parse_digits 0 false digits
    | String "-" digits => Z.opp <$> parse_digits 0 false digits
    | _ => parse_digits 0 false body
    end in
  match parsed with
  | Some n => Ok n
  | None => Raise ValueError
  end.

(** *** prosodyauth/prosody/datastore.py *)

(** [dict(pairs)]: a later pair replaces an earlier one with the same key. *)
Definition dict {V} (pairs : list (string * V)) : gmap string V :=
  fold_left (fun d kv => <[kv.1 := kv.2]> d) pairs ∅.

(** The rows selected by
    [WHERE UPPER("user")=UPPER(%s) AND UPPER(host)=UPPER(%s) AND store=%s]. *)
Definition selected (username domain store_ : string) (r : Prosody) : bool :=
  (UPPER (user r) =? UPPER username)%string
  && (UPPER (host r) =? UPPER domain)%string
  && (store r =? store_)%string.

(** [ProsodyDatastore.get_data_store]; the store is the table, which it
    only reads. *)
Definition get_data_store (username domain store_ : string)
  : M table (gmap string string) :=
  (db <- get ;;
   let fetchall := map (fun r => (key r, value r)) (List.filter (selected username domain store_) db) in
   let data := dict fetchall in
   ret data)%py.

(** *** The [User] model *)

(** What the lastlog dictionary holds: [int] for number rows, [str] otherwise. *)
Inductive pyvalue : Type :=
| PyInt (n : Z)
| PyStr (s : string).

(** The attributes of a [User] instance that the lastlog accessors use. *)
Record User : Type := {
  username : string;
  _lastlog_data : option (gmap string pyvalue)
}.

Definition set_lastlog_data (d : gmap string pyvalue) : M User unit :=
  modify (fun self => {| username := username self; _lastlog_data := Some d |}).

(** [self._lastlog_data[k] = v] *)
Definition lastlog_data_setitem (k : string) (v : pyvalue) : M User unit :=
  (self <- get ;;
   match _lastlog_data self with
   | Some d => set_lastlog_data (<[k := v]> d)
   | None => raise TypeError
   end)%py.

(** [Prosody.objects.filter(user__iexact=username, store='lastlog')] *)
Definition objects_filter_lastlog (db : table) (username_ : string) : list Prosody :=
  List.filter (fun r => iexact (user r) username_ && (store r =? "lastlog")%string) db.

(** The body of [for item in store] in [_get_lastlog]. *)
Definition lastlog_item (item : Prosody) : M User unit :=
  (if (type item =? "number")%string
   then n <- lift (int (value item)) ;; lastlog_data_setitem (key item) (PyInt n)
   else lastlog_data_setitem (key item) (PyStr (value item)))%py.

(** [User._get_lastlog], reading the table [db]; the store is the instance,
    whose cache it fills on the first call. *)
Definition _get_lastlog (db : table) (key_ : string) : M User (option pyvalue) :=
  (self <- get ;;
   match _lastlog_data self with
   | None =>
       let store_ := objects_filter_lastlog db (username self) in
       set_lastlog_data ∅ ;;
       for_each store_ lastlog_item
   | Some _ => ret tt
   end ;;
   self <- get ;;
   match _lastlog_data self with
   | Some d => ret (d !! key_)
   | None => raise AttributeError
   end)%py.

(** [x == 'login'] for what [_get_lastlog] returns. *)
Definition eq_str (x : option pyvalue) (s : string) : bool :=
  match x with
  | Some (PyStr t) => (t =? s)%string
  | _ => false
  end.

(** [User.xmpp_online] *)
Definition xmpp_online (db : table) : M User bool :=
  (x <- _get_lastlog db "event" ;;
   if eq_str x "login" then ret true else ret false)%py.

(** *** Vocabulary of the specification *)

#[export] Instance Prosody_eq_dec : EqDecision Prosody.
Proof. solve_decision. Defined.

(** What [_get_lastlog] stores for a row; nothing when [int] fails. *)
Definition lastlog_value (item : Prosody) : option pyvalue :=
  if (type item =? "number")%string
  then match int (value item) with
       | Ok n => Some (PyInt n)
       | Raise _ => None
       end
  else Some (PyStr (value item)).

(** The last row with key [k], in query order. *)
Definition last_with_key (k : string) (rows : list Prosody) : option Prosody :=
  last (List.filter (fun r => (key r =? k)%string) rows).

(** A row for examples. *)
Definition example_row (user_ store_ key_ type_ value_ : string) : Prosody :=
  {| pk := None; host := "example.org"; user := user_; store := store_;
     key := key_; type := type_; value := value_ |}.

(** A number row holds an integer literal. *)
Definition integer_if_number (r : Prosody) : Prop :=
  type r = "number" -> exists n, int (value r) = Ok n.

End ProsodyAuth.

(** ** More of forum/templatetags/forum_extras.py *)

Module ForumMore.
Import Py Forum.

(** The pieces that [make_tree] has written when the loop over [posts]
    ends, before the closing tags that follow the loop. *)
Definition written (posts : list Post) (current_post : option Post) : list fragment :=
  html (snd (for_each posts (loop_body current_post) initial)).

(** The boundaries still on the stack when the loop over [posts] ends. *)
Definition pending (posts : list Post) (current_post : option Post) : list Z :=
  levels (snd (for_each posts (loop_body current_post) initial)).

(** A line and its close tag, for each post. *)
Definition flat_pieces (current_post : option Post) (posts : list Post) : list fragment :=
  flat_map (fun p => [post_line current_post p; DivClose]) posts.

(** What the loop keeps, whatever the posts: the containers of posts
    written and not closed are those pending on the stack, never fewer
    than none, and [depth] counts them. *)
Definition in_step (s : locals) : Prop :=
  never_below 0 (html s) /\
  open_posts (html s) = Z.of_nat (length (levels s)) /\
  depth s = Z.of_nat (length (levels s)).

Definition no_tree_open (fs : list fragment) : Prop :=
  Forall (fun f => is_tree_open f = false) fs.

(** The text of a line after the tag that opens it. *)
Definition opens_with_div (text : string) : Prop :=
  exists rest, text = "<div>" +:+ rest.

End ForumMore.

(** ** More of prosodyauth/models.py *)

Module Accounts.
Import Py ProsodyAuth.





(** [datetime.utcfromtimestamp] on an integer is taken from outside; on
    anything that is not a number it raises [TypeError]. *)
Class Datetime : Type := {
  datetime : Type;
  utcfromtimestamp_int : Z -> outcome datetime
}.

Definition utcfromtimestamp {dt : Datetime} (x : option pyvalue) : outcome datetime :=
  match x with
  | Some (PyInt n) => utcfromtimestamp_int n
  | Some (PyStr _) => Raise TypeError
  | None => Raise TypeError
  end.

(** [User.xmpp_last_login] *)
Definition xmpp_last_login {dt : Datetime} (db : table) : M User datetime :=
  (x <- _get_lastlog db "timestamp" ;; lift (utcfromtimestamp x))%py.

(** [User.xmpp_last_ip] *)
Definition xmpp_last_ip (db : table) : M User (option pyvalue) :=
  _get_lastlog db "ip".

(** A datetime for examples: the timestamp itself. *)
Definition example_datetime : Datetime :=
  {| datetime := Z; utcfromtimestamp_int := fun n => Ok n |}.

(** The name fields of a [User] instance; both columns are [null=True]. *)
Record Names : Type := {
  first_name : option string;
  last_name : option string
}.

(** How [str.format] shows a field: the text, or [None]. *)
Definition format_field (x : option string) : string :=
  match x with
  | Some s => s
  | None => "None"
  end.

(** ASCII white space in the sense of [str.isspace]. *)
Definition isspace (c : ascii) : bool :=
  let n := nat_of_ascii c in
  ((n =? 32) || ((9 <=? n) && (n <=? 13)) || ((28 <=? n) && (n <=? 31)))%nat.

Fixpoint str_lstrip (s : string) : string :=
  match s with
  | EmptyString => EmptyString
  | String c s' => if isspace c then str_lstrip s' else s
  end.

Fixpoint str_rstrip (s : string) : string :=
  match s with
  | EmptyString => EmptyString
  | String c s' =>
      match str_rstrip s' with
      | EmptyString => if isspace c then EmptyString else String c EmptyString
      | r => String c r
      end
  end.

(** [s.strip()], on ASCII text. *)
Definition str_strip (s : string) : string := str_rstrip (str_lstrip s).

(** [User.full_name] *)
Definition full_name (self : Names) : string :=
  str_strip (format_field (first_name self) +:+ " " +:+ format_field (last_name self)).

(** The first and the last character of a text. *)
Definition first_char (s : string) : option ascii :=
  match s with
  | EmptyString => None
  | String c _ => Some c
  end.

Fixpoint last_char (s : string) : option ascii :=
  match s with
  | EmptyString => None
  | String c EmptyString => Some c
  | String _ s' => last_char s'
  end.

End Accounts.

(** The [LoginAudit] model and [User.last_login]. *)

Module Audits.

(** A row of the login audit: the user it belongs to (by primary key),
    the date (as a time stamp) and the address. *)
Record LoginAudit : Type := {
  user : Z;
  login_date : Z;
  ip : string
}.

(** The result of a query for one row. *)
Inductive found (A : Type) : Type :=
| Found (a : A)
| DoesNotExist.
Arguments Found {A} a.
Arguments DoesNotExist {A}.

(** [LoginAudit.objects.latest('login_date')]: a row with the greatest
    date, the first of them in table order. *)
Fixpoint latest (rows : list LoginAudit) : found LoginAudit :=
  match rows with
  | [] => DoesNotExist
  | a :: rows' =>
      match latest rows' with
      | Found b => if login_date a <? login_date b then Found b else Found a
      | DoesNotExist => Found a
      end
  end.

(** The getter of [User.last_login], for the user with primary key [self]:
<<
    try:
        last_login = LoginAudit.objects.latest('login_date')
        return last_login.login_date
    except LoginAudit.DoesNotExist:
        return None
>> *)
Definition last_login (self : Z) (audits : list LoginAudit) : option Z :=
  match latest audits with
  | Found last_login => Some (login_date last_login)
  | DoesNotExist => None
  end.

End Audits.

(* ===================================================================== *)
(** * Part II: properties                                                *)
(* ===================================================================== *)

(** ** The tree renderer *)

Module ForumSpec.
Import Py Forum.

(** *** The closing loop *)

Lemma while_levels_empty post s :
  levels s = [] -> while_levels post s = (Raise IndexError, s).
Proof.
  intros Hl. simp while_levels.
  destruct (inspect (last (levels s))) as [[top|] e]; simp while_levels; try reflexivity.
  pose proof e as e'. rewrite Hl in e'. discriminate.
Qed.

Lemma while_levels_stop post s l top :
  levels s = l ++ [top] -> left post <= top -> while_levels post s = (Ok tt, s).
Proof.
  intros Hl Hge. simp while_levels.
  destruct (inspect (last (levels s))) as [[top'|] e]; simp while_levels;
    pose proof e as e'; rewrite Hl, last_snoc in e'; try discriminate.
  injection e' as <-.
  destruct (top <? left post) eqn:Hlt; simp while_levels; try reflexivity.
  apply Z.ltb_lt in Hlt. lia.
Qed.

Lemma while_levels_pop post s l top :
  levels s = l ++ [top] -> top < left post ->
  while_levels post s =
  while_levels post {| html := html s ++ [DivClose]; levels := l; depth := depth s - 1 |}.
Proof.
  intros Hl Hlt. simp while_levels.
  destruct (inspect (last (levels s))) as [[top'|] e]; simp while_levels;
    pose proof e as e'; rewrite Hl, last_snoc in e'; try discriminate.
  injection e' as <-.
  destruct (top <? left post) eqn:Hltb; simp while_levels.
  - rewrite Hl, removelast_last. reflexivity.
  - apply Z.ltb_ge in Hltb. lia.
Qed.


Lemma closed_by_0 s : closed_by 0 (levels s) s = s.
Proof.
  destruct s as [h l d]. unfold closed_by. simpl.
  rewrite app_nil_r. f_equal. lia.
Qed.

Lemma while_levels_split post s :
  exists keep popped,
    levels s = keep ++ popped /\
    Forall (fun r => r < left post) popped /\
    match last keep with
    | None => while_levels post s = (Raise IndexError, closed_by (length popped) keep s)
    | Some top =>
        left post <= top /\
        while_levels post s = (Ok tt, closed_by (length popped) keep s)
    end.
Proof.
  remember (levels s) as l eqn:Hl. revert s Hl.
  induction l as [|top l IH] using rev_ind; intros s Hl.
  - exists [], []. repeat split; [constructor|]. simpl.
    rewrite while_levels_empty by auto. rewrite Hl, closed_by_0. reflexivity.
  - destruct (Z_lt_dec top (left post)) as [Hlt|Hge].
    + rewrite (while_levels_pop post s l top) by auto.
      destruct (IH {| html := html s ++ [DivClose]; levels := l; depth := depth s - 1 |} eq_refl)
        as (keep & popped & Hsplit & Hall & Hrun).
      simpl in Hsplit. subst l.
      exists keep, (popped ++ [top]). split; [now rewrite app_assoc|].
      split; [apply Forall_app; split; [assumption|repeat constructor; assumption]|].
      rewrite length_app. simpl. rewrite Nat.add_1_r.
      assert (Heq : forall n, closed_by n keep
                {| html := html s ++ [DivClose]; levels := keep ++ popped; depth := depth s - 1 |}
              = closed_by (S n) keep s).
      { intros n. unfold closed_by. simpl. rewrite <- app_assoc. simpl. f_equal. lia. }
      rewrite Heq in Hrun. exact Hrun.
    + exists (l ++ [top]), []. split; [now rewrite app_nil_r|]. split; [constructor|].
      rewrite last_snoc. split; [lia|].
      rewrite (while_levels_stop post s l top) by (auto; lia).
      simpl. rewrite Hl, closed_by_0. reflexivity.
Qed.

Lemma try_while_levels post s :
  exists keep popped,
    levels s = keep ++ popped /\
    Forall (fun r => r < left post) popped /\
    (forall top, last keep = Some top -> left post <= top) /\
    try_except_pass (while_levels post) IndexError s
    = (Ok tt, closed_by (length popped) keep s).
Proof.
  destruct (while_levels_split post s) as (keep & popped & Hsplit & Hall & Hrun).
  exists keep, popped. repeat split; try assumption.
  - intros top Htop. rewrite Htop in Hrun. tauto.
  - unfold try_except_pass. destruct (last keep).
    + destruct Hrun as [_ ->]. reflexivity.
    + rewrite Hrun. reflexivity.
Qed.

Lemma loop_body_split cur post s :
  exists keep popped,
    levels s = keep ++ popped /\
    Forall (fun r => r < left post) popped /\
    (forall top, last keep = Some top -> left post <= top) /\
    loop_body cur post s
    = (Ok tt, after_post cur post (closed_by (length popped) keep s)).
Proof.
  destruct (try_while_levels post s) as (keep & popped & Hsplit & Hall & Htop & Hrun).
  exists keep, popped. repeat split; try assumption.
  unfold loop_body, bind. rewrite Hrun. unfold after_post, html_add, modify.
  destruct (right post - left post >? 1); reflexivity.
Qed.

Lemma for_each_app {S A} (xs ys : list A) (body : A -> M S unit) s :
  for_each (xs ++ ys) body s =
  match for_each xs body s with
  | (Ok _, s') => for_each ys body s'
  | (Raise e, s') => (Raise e, s')
  end.
Proof.
  revert s. induction xs as [|x xs IH]; intros s; simpl.
  - destruct (for_each ys body s) as [[[]|e] s']; reflexivity.
  - unfold bind. destruct (body x s) as [[[]|e] s1]; [apply IH|reflexivity].
Qed.

(** *** Counting the pieces *)

Lemma closes_app a b : closes (a ++ b) = (closes a + closes b)%nat.
Proof. unfold closes. now rewrite List.filter_app, length_app. Qed.

Lemma opens_app a b : opens (a ++ b) = (opens a + opens b)%nat.
Proof. unfold opens. now rewrite List.filter_app, length_app. Qed.

Lemma lines_app a b : lines (a ++ b) = lines a ++ lines b.
Proof. unfold lines. apply List.filter_app. Qed.

Lemma closes_repeat n : closes (repeat DivClose n) = n.
Proof. unfold closes. induction n; simpl; [reflexivity|now f_equal]. Qed.

Lemma opens_repeat n : opens (repeat DivClose n) = 0%nat.
Proof. unfold opens. induction n; simpl; [reflexivity|assumption]. Qed.

Lemma lines_repeat n : lines (repeat DivClose n) = [].
Proof. unfold lines. induction n; simpl; [reflexivity|assumption]. Qed.

Lemma open_posts_app a b : open_posts (a ++ b) = open_posts a + open_posts b.
Proof.
  unfold open_posts. rewrite lines_app, closes_app, length_app. lia.
Qed.

(** *** Every input: the loop never fails and the tags balance *)

Lemma loop_body_tally cur post s :
  depth s = Z.of_nat (length (levels s)) ->
  exists s', loop_body cur post s = (Ok tt, s') /\ tally cur [post] s s'.
Proof.
  intros Hd.
  destruct (loop_body_split cur post s) as (keep & popped & Hsplit & _ & _ & Hrun).
  eexists. split; [exact Hrun|].
  unfold after_post, closed_by.
  destruct (right post - left post >? 1); split; simpl;
    rewrite ?lines_app, ?opens_app, ?closes_app, ?lines_repeat,
      ?opens_repeat, ?closes_repeat, ?Hsplit, ?length_app, ?app_nil_r in *;
    simpl; try reflexivity; try (unfold closes, opens; simpl; lia).
Qed.

Lemma for_each_tally cur posts s :
  depth s = Z.of_nat (length (levels s)) ->
  exists s', for_each posts (loop_body cur) s = (Ok tt, s') /\ tally cur posts s s'.
Proof.
  revert s. induction posts as [|post posts IH]; intros s Hd.
  - exists s. split; [reflexivity|]. split; rewrite ?app_nil_r; simpl; auto.
  - destruct (loop_body_tally cur post s Hd) as (s1 & Hrun1 & [Hd1 Hl1 Ho1 Hc1]).
    destruct (IH s1 Hd1) as (s2 & Hrun2 & [Hd2 Hl2 Ho2 Hc2]).
    exists s2. split.
    + simpl. unfold bind. rewrite Hrun1. exact Hrun2.
    + split; [assumption| | |].
      * rewrite Hl2, Hl1, <- app_assoc. reflexivity.
      * rewrite Ho2, Ho1. simpl. lia.
      * simpl in *. lia.
Qed.

(** *** Tags in the returned string *)

Lemma append_cons (c : ascii) (a b : string) : String c a +:+ b = String c (a +:+ b).
Proof. reflexivity. Qed.

Lemma append_assoc (a b c : string) : (a +:+ b) +:+ c = a +:+ (b +:+ c).
Proof.
  induction a as [|ch a IH]; [reflexivity|].
  rewrite !append_cons. now rewrite IH.
Qed.

Lemma length_append (a b : string) :
  String.length (a +:+ b) = (String.length a + String.length b)%nat.
Proof.
  induction a as [|ch a IH]; [reflexivity|].
  rewrite append_cons. simpl. now rewrite IH.
Qed.

Lemma prefix_empty (s : string) : String.prefix "" s = true.
Proof. destruct s; reflexivity. Qed.

(** A pattern that fits in [u] is matched inside [u], whatever follows. *)
Lemma prefix_append_long (pat u b : string) :
  (String.length pat <= String.length u)%nat ->
  String.prefix pat (u +:+ b) = String.prefix pat u.
Proof.
  revert u. induction pat as [|c pat IH]; intros u Hlen.
  - now rewrite !prefix_empty.
  - destruct u as [|d u]; simpl in Hlen; [lia|].
    rewrite append_cons. simpl.
    destruct (ascii_dec c d); [apply IH; lia|reflexivity].
Qed.

Lemma prefix_append_true (pat a b : string) :
  String.prefix pat (a +:+ b) = true ->
  String.prefix a pat = true \/ String.prefix pat a = true.
Proof.
  revert a. induction pat as [|c pat IH]; intros a Hp.
  - right. apply prefix_empty.
  - destruct a as [|d a]; [left; reflexivity|].
    rewrite append_cons in Hp. simpl in Hp. simpl.
    destruct (ascii_dec c d) as [->|Hne]; [|discriminate].
    destruct (ascii_dec d d); [|congruence]. now apply IH.
Qed.

Lemma prefix_append_mono (pat a b : string) :
  String.prefix pat a = true -> String.prefix pat (a +:+ b) = true.
Proof.
  revert a. induction pat as [|c pat IH]; intros a Hp.
  - apply prefix_empty.
  - destruct a as [|d a]; [discriminate|].
    rewrite append_cons. simpl in *.
    destruct (ascii_dec c d); [now apply IH|discriminate].
Qed.

Lemma prefix_append_stable (pat a b : string) :
  String.prefix pat a || negb (String.prefix a pat) = true ->
  String.prefix pat (a +:+ b) = String.prefix pat a.
Proof.
  intros Hc. destruct (String.prefix pat a) eqn:Hpa.
  - now apply prefix_append_mono.
  - simpl in Hc. apply negb_true_iff in Hc.
    destruct (String.prefix pat (a +:+ b)) eqn:Hpab; [|reflexivity].
    apply prefix_append_true in Hpab as [Hp|Hp]; congruence.
Qed.

Lemma suffix_clear_ends_clear (pat a : string) :
  suffix_clear pat a = true -> ends_clear pat a.
Proof.
  intros Hc b. induction a as [|c a IH]; [reflexivity|].
  simpl in Hc. apply andb_true_iff in Hc as [Hhead Htail].
  rewrite append_cons. cbn [occurrences]. rewrite (IH Htail).
  rewrite <- append_cons, (prefix_append_stable _ _ _ Hhead). lia.
Qed.

Lemma ends_clear_append (pat c : string) :
  (String.length pat <= S (String.length c))%nat ->
  ends_clear pat c ->
  forall y, ends_clear pat (y +:+ c).
Proof.
  intros Hlen Hc y b. induction y as [|ch y IH].
  - apply Hc.
  - rewrite !append_cons. cbn [occurrences]. rewrite IH.
    rewrite <- !append_cons. rewrite prefix_append_long; [lia|].
    rewrite append_cons. simpl. rewrite length_append. lia.
Qed.

Section Tags.
Context {site : Site}.

Lemma format_line_date current post :
  exists y, format_line current post = y +:+ "[date]".
Proof.
  unfold format_line. destruct current.
  - eexists. rewrite <- !append_assoc. reflexivity.
  - eexists. rewrite <- !append_assoc. reflexivity.
Qed.

Lemma ends_clear_fragment pat f :
  (String.length pat <= 7)%nat ->
  suffix_clear pat "[date]" = true ->
  suffix_clear pat (render_fragment TreeOpen) = true ->
  suffix_clear pat (render_fragment DivClose) = true ->
  ends_clear pat (render_fragment f).
Proof.
  intros Hlen Hdate Htree Hclose. destruct f as [|current p|].
  - now apply suffix_clear_ends_clear.
  - simpl. destruct (format_line_date current p) as [y ->].
    apply ends_clear_append; [simpl; lia|]. now apply suffix_clear_ends_clear.
  - now apply suffix_clear_ends_clear.
Qed.

Lemma occurrences_render pat fs :
  (forall f, ends_clear pat (render_fragment f)) ->
  occurrences pat (render fs) = occurrences_in_pieces pat fs.
Proof.
  intros Hclear. unfold occurrences_in_pieces.
  induction fs as [|f fs IH]; simpl; [reflexivity|].
  rewrite Hclear, IH. reflexivity.
Qed.

Lemma occurrences_render_close fs :
  occurrences "</div>" (render fs) = occurrences_in_pieces "</div>" fs.
Proof.
  apply occurrences_render. intros f.
  apply ends_clear_fragment; [simpl; lia|reflexivity..].
Qed.

Lemma occurrences_render_open fs :
  occurrences "<div" (render fs) = occurrences_in_pieces "<div" fs.
Proof.
  apply occurrences_render. intros f.
  apply ends_clear_fragment; [simpl; lia|reflexivity..].
Qed.

End Tags.

(** *** The claims about every input *)

Lemma make_tree_body_tally cur posts :
  exists s out,
    for_each posts (loop_body cur) initial = (Ok tt, s) /\
    tally cur posts initial s /\
    out = (html s ++ repeat DivClose (Z.to_nat (depth s))) ++ [DivClose] /\
    make_tree_html posts cur = Ok out.
Proof.
  destruct (for_each_tally cur posts initial eq_refl) as (s & Hrun & Ht).
  exists s, ((html s ++ repeat DivClose (Z.to_nat (depth s))) ++ [DivClose]).
  repeat split; try assumption; try apply Ht.
  unfold make_tree_html, make_tree_body, bind. rewrite Hrun. reflexivity.
Qed.

(** C4.  [make_tree] returns a string for every sequence of posts, whatever
    their boundaries.  The guarded loop always ends normally; on an empty
    stack [levels[-1]] raises [IndexError], which the guard swallows,
    leaving the locals as they were: nothing is closed. *)
Theorem make_tree_total {site : Site} :
  (forall posts cur, exists text, make_tree posts cur = Ok text) /\
  (forall post s, exists s',
      try_except_pass (while_levels post) IndexError s = (Ok tt, s')) /\
  (forall post h d,
      let s := {| html := h; levels := []; depth := d |} in
      while_levels post s = (Raise IndexError, s) /\
      try_except_pass (while_levels post) IndexError s = (Ok tt, s)).
Proof.
  split; [|split].
  - intros posts cur.
    destruct (make_tree_body_tally cur posts) as (s & out & _ & _ & _ & Hout).
    exists (mark_safe (render out)). unfold make_tree. rewrite Hout. reflexivity.
  - intros post s.
    destruct (try_while_levels post s) as (keep & popped & _ & _ & _ & Hrun). eauto.
  - intros post h d s.
    assert (Hw : while_levels post s = (Raise IndexError, s))
      by now apply while_levels_empty.
    split; [exact Hw|]. unfold try_except_pass. rewrite Hw. reflexivity.
Qed.

(** C5.  On the empty sequence [make_tree] returns the outer wrapper,
    opened and closed, and nothing else. *)
Theorem make_tree_empty {site : Site} cur :
  make_tree_html [] cur = Ok [TreeOpen; DivClose] /\
  make_tree [] cur = Ok ("<div class=" +:+ dquote +:+ "post-tree" +:+ dquote +:+ "></div>").
Proof. split; reflexivity. Qed.

(** C3.  After the line of a post is emitted: when [right - left > 1] the
    right boundary is pushed and no close tag follows the line; otherwise
    the close tag follows the line at once and the stack is as the closing
    loop left it. *)
Theorem loop_body_push_or_close cur post s :
  exists s1 s2,
    try_except_pass (while_levels post) IndexError s = (Ok tt, s1) /\
    loop_body cur post s = (Ok tt, s2) /\
    ((right post - left post > 1 /\
      html s2 = html s1 ++ [post_line cur post] /\
      levels s2 = levels s1 ++ [right post] /\
      depth s2 = Z.of_nat (length (levels s2)))
     \/
     (right post - left post <= 1 /\
      html s2 = html s1 ++ [post_line cur post; DivClose] /\
      levels s2 = levels s1 /\
      depth s2 = depth s1)).
Proof.
  destruct (try_while_levels post s) as (keep & popped & _ & _ & _ & Hrun).
  exists (closed_by (length popped) keep s),
    (after_post cur post (closed_by (length popped) keep s)).
  split; [exact Hrun|]. split.
  - unfold loop_body, bind. rewrite Hrun. unfold after_post, html_add, modify.
    destruct (right post - left post >? 1); reflexivity.
  - unfold after_post. destruct (right post - left post >? 1) eqn:Hgt; simpl.
    + left. apply Z.gtb_lt in Hgt. repeat split. lia.
    + right. rewrite Z.gtb_ltb in Hgt. apply Z.ltb_ge in Hgt.
      repeat split; [lia|]. now rewrite <- app_assoc.
Qed.

(** *** Closing before a post *)

(** On a stack whose boundaries decrease from bottom to top, what stays
    below the first boundary not less than [x] is all that is not less. *)
Lemma sorted_keep (x : Z) (keep popped : list Z) :
  StronglySorted Z.gt (keep ++ popped) ->
  Forall (fun r => r < x) popped ->
  (forall top, last keep = Some top -> x <= top) ->
  List.filter (fun r => x <=? r) (keep ++ popped) = keep.
Proof.
  intros Hsorted Hpopped Htop.
  rewrite List.filter_app.
  assert (Hp : List.filter (fun r => x <=? r) popped = []).
  { clear Hsorted. induction Hpopped as [|r popped Hr _ IH]; simpl; [reflexivity|].
    destruct (x <=? r) eqn:Hle; [apply Z.leb_le in Hle; lia|exact IH]. }
  rewrite Hp, app_nil_r. clear Hp Hpopped.
  induction keep as [|a keep IH]; simpl; [reflexivity|].
  simpl in Hsorted. apply StronglySorted_inv in Hsorted as [Hsorted Ha].
  assert (Hxa : x <= a).
  { destruct keep as [|b keep'].
    - apply Htop. reflexivity.
    - destruct (last (b :: keep')) as [t|] eqn:Hlast.
      + assert (x <= t) by (apply Htop; rewrite last_cons, Hlast; reflexivity).
        apply last_Some_elem_of in Hlast.
        rewrite Forall_forall in Ha.
        assert (a > t)%Z by (apply Ha, elem_of_app; now left).
        lia.
      + apply last_None in Hlast. discriminate. }
  destruct (x <=? a) eqn:Hle; [|apply Z.leb_gt in Hle; lia].
  f_equal. apply IH; [exact Hsorted|].
  intros top Hlast. apply Htop. rewrite last_cons, Hlast. reflexivity.
Qed.

(** C2, as stated, fails: with the container of a post [(1,5)] open, the
    post [(5,6)] is emitted with that container still open, although its
    right boundary [5] is not greater than the new [left]. *)
Lemma closing_misses_equal_boundary :
  ~ (forall cur pre post s s1,
       for_each pre (loop_body cur) initial = (Ok tt, s) ->
       try_except_pass (while_levels post) IndexError s = (Ok tt, s1) ->
       Forall (fun r => left post < r) (levels s1)).
Proof.
  intros Hclaim.
  specialize (Hclaim None [example_post 1 5 "first"] (example_post 5 6 "second")
                _ _ eq_refl eq_refl).
  apply Forall_inv in Hclaim. simpl in Hclaim. lia.
Qed.

(** The whole output on that input: the second post is nested in the
    first. *)
Example make_tree_equal_boundary :
  make_tree_html [example_post 1 5 "first"; example_post 5 6 "second"] None
  = Ok [TreeOpen;
        PostLine false (example_post 1 5 "first");
        PostLine false (example_post 5 6 "second"); DivClose;
        DivClose;
        DivClose].
Proof. reflexivity. Qed.

(** C2, amended.  Before the line of a post is emitted, the loop pops
    boundaries from the top of the stack for as long as the top is
    strictly less than [post.left], appending one close tag for each; it
    stops at the first boundary from the top that is not less (or at the
    empty stack).  When the boundaries on the stack decrease from bottom
    to top, the ones that stay are exactly those not less than
    [post.left]. *)
Theorem closing_before_post cur post s :
  exists keep popped,
    levels s = keep ++ popped /\
    Forall (fun r => r < left post) popped /\
    (forall top, last keep = Some top -> left post <= top) /\
    try_except_pass (while_levels post) IndexError s
    = (Ok tt, closed_by (length popped) keep s) /\
    loop_body cur post s
    = (Ok tt, after_post cur post (closed_by (length popped) keep s)) /\
    (StronglySorted Z.gt (levels s) ->
     keep = List.filter (fun r => left post <=? r) (levels s)).
Proof.
  destruct (try_while_levels post s) as (keep & popped & Hsplit & Hall & Htop & Hrun).
  exists keep, popped. repeat split; try assumption.
  - unfold loop_body, bind. rewrite Hrun. unfold after_post, html_add, modify.
    destruct (right post - left post >? 1); reflexivity.
  - intros Hsorted. rewrite Hsplit in *. symmetry. now apply sorted_keep.
Qed.

(** The amended C2 at a stack [10; 7; 3] and a post with [left = 5]. *)
Lemma closing_before_post_witness :
  exists keep popped,
    [10; 7; 3] = keep ++ popped /\
    Forall (fun r => r < 5) popped /\
    keep = List.filter (fun r => 5 <=? r) [10; 7; 3].
Proof.
  destruct (closing_before_post None (example_post 5 6 "reply")
              {| html := [TreeOpen]; levels := [10; 7; 3]; depth := 3 |})
    as (keep & popped & Hsplit & Hall & _ & _ & _ & Hsorted).
  exists keep, popped. split; [exact Hsplit|]. split; [exact Hall|].
  apply Hsorted. simpl. repeat constructor; lia.
Defined.

(** *** Balance of the tags *)

Lemma make_tree_html_counts cur posts :
  exists out,
    make_tree_html posts cur = Ok out /\
    lines out = map (post_line cur) posts /\
    opens out = S (length posts) /\
    closes out = S (length posts).
Proof.
  destruct (make_tree_body_tally cur posts) as (s & out & _ & [Hd Hl Ho Hc] & -> & Hout).
  eexists. split; [exact Hout|].
  rewrite !lines_app, !opens_app, !closes_app, lines_repeat, opens_repeat, closes_repeat.
  rewrite Hd, Nat2Z.id, Hl, Ho. simpl in *.
  repeat split; try (unfold opens, closes in *; simpl in *; lia).
  now rewrite !app_nil_r.
Qed.

Lemma opens_by_kind fs :
  opens fs = (length (List.filter is_tree_open fs) + length (lines fs))%nat.
Proof.
  unfold opens, lines. induction fs as [|[|c p|] fs IH]; simpl; lia.
Qed.

Lemma list_sum_by_kind (g : fragment -> nat) fs :
  list_sum (map g fs) =
  (length (List.filter is_tree_open fs) * g TreeOpen
   + closes fs * g DivClose
   + list_sum (map g (lines fs)))%nat.
Proof.
  unfold closes, lines.
  induction fs as [|[|c p|] fs IH]; simpl; [reflexivity|rewrite IH; lia..].
Qed.

Lemma pieces_by_kind {site : Site} pat fs :
  occurrences_in_pieces pat fs =
  (length (List.filter is_tree_open fs) * occurrences pat (render_fragment TreeOpen)
   + closes fs * occurrences pat (render_fragment DivClose)
   + occurrences_in_pieces pat (lines fs))%nat.
Proof.
  unfold occurrences_in_pieces.
  apply (list_sum_by_kind (fun f => occurrences pat (render_fragment f))).
Qed.

Lemma pieces_of_lines {site : Site} pat cur posts :
  occurrences_in_pieces pat (map (post_line cur) posts) = line_occurrences pat cur posts.
Proof.
  unfold occurrences_in_pieces, line_occurrences. rewrite map_map. reflexivity.
Qed.

Lemma line_occurrences_plain {site : Site} cur posts :
  Forall (plain_line cur) posts ->
  line_occurrences "<div" cur posts = length posts /\
  line_occurrences "</div>" cur posts = 0%nat.
Proof.
  unfold line_occurrences.
  induction 1 as [|p posts [Hopen Hclose] _ [IHo IHc]]; simpl; [split; reflexivity|].
  rewrite Hopen, Hclose, IHo, IHc. split; reflexivity.
Qed.

(** C9, as stated, fails: the subject of a post is copied into the string
    as it is, so a subject that holds a close tag unbalances the string. *)
Lemma make_tree_string_unbalanced :
  ~ (forall (site : Site) posts cur text,
       make_tree posts cur = Ok text ->
       occurrences "</div>" text = occurrences "<div" text /\
       occurrences "</div>" text = S (length posts)).
Proof.
  intros Hclaim.
  destruct (Hclaim example_site [example_post 1 2 "</div>"] None _ eq_refl) as [Hbal _].
  vm_compute in Hbal. discriminate.
Qed.

(** The tags of the returned string: those that [make_tree] writes and
    those inside the lines of the posts. *)
Lemma make_tree_tag_count {site : Site} posts cur out :
  make_tree_html posts cur = Ok out ->
  occurrences "<div" (render out) = (1 + line_occurrences "<div" cur posts)%nat /\
  occurrences "</div>" (render out)
  = (S (length posts) + line_occurrences "</div>" cur posts)%nat.
Proof.
  intros Hout.
  destruct (make_tree_html_counts cur posts) as (out' & Hout' & Hlines & Hopens & Hcloses).
  rewrite Hout in Hout'. injection Hout' as <-.
  assert (Htree : length (List.filter is_tree_open out) = 1%nat).
  { pose proof (opens_by_kind out) as Hk.
    rewrite Hopens, Hlines, length_map in Hk. lia. }
  split.
  - rewrite occurrences_render_open, pieces_by_kind, Htree, Hcloses, Hlines, pieces_of_lines.
    change (occurrences "<div" (render_fragment TreeOpen)) with 1%nat.
    change (occurrences "<div" (render_fragment DivClose)) with 0%nat. lia.
  - rewrite occurrences_render_close, pieces_by_kind, Htree, Hcloses, Hlines, pieces_of_lines.
    change (occurrences "</div>" (render_fragment TreeOpen)) with 0%nat.
    change (occurrences "</div>" (render_fragment DivClose)) with 1%nat. lia.
Qed.

(** C9, amended.  For every sequence of posts, whatever their boundaries,
    the tags that [make_tree] itself writes balance: one open tag for the
    wrapper and one per post, and as many close tags.  When no line of a
    post holds a [div] tag besides the one that opens it, the returned
    string has exactly one more open tag and one more close tag than
    there are posts. *)
Theorem make_tree_balanced {site : Site} posts cur :
  exists out,
    make_tree_html posts cur = Ok out /\
    make_tree posts cur = Ok (render out) /\
    opens out = S (length posts) /\
    closes out = S (length posts) /\
    (Forall (plain_line cur) posts ->
     occurrences "<div" (render out) = S (length posts) /\
     occurrences "</div>" (render out) = S (length posts)).
Proof.
  destruct (make_tree_html_counts cur posts) as (out & Hout & Hlines & Hopens & Hcloses).
  exists out. split; [exact Hout|]. split; [unfold make_tree; now rewrite Hout|].
  do 2 (split; [assumption|]).
  intros Hplain. apply line_occurrences_plain in Hplain as [Ho Hc].
  destruct (make_tree_tag_count posts cur out Hout) as [Hdiv Hend].
  rewrite Hdiv, Hend, Ho, Hc. split; lia.
Qed.

(** The amended C9 at a thread of three posts. *)
Lemma make_tree_balanced_witness :
  let posts := [example_post 1 6 "welcome"; example_post 2 3 "re: welcome";
                example_post 4 5 "thanks"] in
  exists out,
    make_tree (site := example_site) posts None = Ok (render (site := example_site) out) /\
    occurrences "<div" (render (site := example_site) out) = 4%nat /\
    occurrences "</div>" (render (site := example_site) out) = 4%nat.
Proof.
  intros posts.
  destruct (make_tree_balanced (site := example_site) posts None)
    as (out & _ & Htext & _ & _ & Hplain).
  exists out. split; [exact Htext|].
  apply Hplain. repeat constructor.
Defined.

(** *** Well-formed sequences *)

Lemma ForallOrdPairs_app_inv {A} (R : A -> A -> Prop) (l1 l2 : list A) :
  ForallOrdPairs R (l1 ++ l2) ->
  ForallOrdPairs R l1 /\ ForallOrdPairs R l2 /\
  (forall a b, In a l1 -> In b l2 -> R a b).
Proof.
  induction l1 as [|x l1 IH]; simpl; intros Hp.
  - repeat split; [constructor|assumption|contradiction].
  - inversion Hp as [|? ? Hx Hrest]; subst.
    destruct (IH Hrest) as (H1 & H2 & H12).
    rewrite List.Forall_forall in Hx.
    repeat split; [| assumption |].
    + constructor; [|assumption].
      apply List.Forall_forall. intros y Hy. apply Hx, in_or_app. now left.
    + intros a b [<-|Ha] Hb; [apply Hx, in_or_app; now right|now apply H12].
Qed.

Lemma well_formed_in_order posts :
  well_formed posts ->
  Forall (fun p => left p < right p) posts /\ ForallOrdPairs in_order posts.
Proof.
  intros (Hlr & Hsorted & Hpairs). split; [assumption|].
  apply Sorted_StronglySorted in Hsorted; [|intros a b c; lia].
  induction posts as [|a posts IH]; [constructor|].
  apply StronglySorted_inv in Hsorted as [Hsorted Ha].
  inversion Hpairs as [|? ? Hpa Hrest]; subst.
  apply Forall_cons in Hlr as [Hlra Hlr].
  constructor; [|now apply IH].
  rewrite List.Forall_forall in *. intros b Hb.
  specialize (Ha b Hb). specialize (Hpa b Hb). specialize (Hlr b Hb).
  unfold in_order, disjoint, contains in *. lia.
Qed.

Lemma filter_map_right (x : Z) (l : list Post) :
  List.filter (fun r => x <=? r) (map right l)
  = map right (List.filter (fun q => x <=? right q) l).
Proof.
  induction l as [|q l IH]; simpl; [reflexivity|].
  destruct (x <=? right q); simpl; now rewrite IH.
Qed.

Lemma filter_filter {A} (f g : A -> bool) (l : list A) :
  List.filter f (List.filter g l) = List.filter (fun a => f a && g a) l.
Proof.
  induction l as [|a l IH]; simpl; [reflexivity|].
  destruct (g a); simpl; [destruct (f a); simpl; now rewrite IH|].
  rewrite andb_false_r. exact IH.
Qed.

(** The boundaries of the open containers decrease from bottom to top. *)
Lemma still_open_sorted (x : Z) (l : list Post) :
  ForallOrdPairs in_order l ->
  (forall q, In q l -> left q <= x) ->
  StronglySorted Z.gt (map right (List.filter (still_open x) l)).
Proof.
  induction l as [|a l IH]; simpl; intros Hp Hx; [constructor|].
  inversion Hp as [|? ? Ha Hrest]; subst.
  assert (IH' : StronglySorted Z.gt (map right (List.filter (still_open x) l)))
    by (apply IH; [assumption|intros q Hq; apply Hx; now right]).
  destruct (still_open x a) eqn:Hopen; [|exact IH'].
  simpl. constructor; [exact IH'|].
  apply List.Forall_forall. intros r Hr.
  apply in_map_iff in Hr as (q & <- & Hq).
  apply filter_In in Hq as [Hq _].
  rewrite List.Forall_forall in Ha. specialize (Ha q Hq).
  assert (left q <= x) by (apply Hx; now right).
  unfold still_open in Hopen. apply andb_true_iff in Hopen as [_ Hopen].
  apply Z.leb_le in Hopen. unfold in_order in Ha. lia.
Qed.

(** *** Depth of the lines *)

Lemma open_posts_delta fs : open_posts fs = fold_right (fun f d => delta f + d) 0 fs.
Proof.
  unfold open_posts, lines, closes.
  induction fs as [|[|c p|] fs IH]; simpl in *; lia.
Qed.

Lemma open_posts_nil : open_posts [] = 0.
Proof. reflexivity. Qed.

Lemma open_posts_cons f fs : open_posts (f :: fs) = delta f + open_posts fs.
Proof. rewrite !open_posts_delta. reflexivity. Qed.

Lemma open_posts_repeat n : open_posts (repeat DivClose n) = - Z.of_nat n.
Proof.
  unfold open_posts. rewrite lines_repeat, closes_repeat. simpl. lia.
Qed.

Lemma line_depths_app d a b :
  line_depths d (a ++ b) = line_depths d a ++ line_depths (d + open_posts a) b.
Proof.
  revert d. induction a as [|f a IH]; intros d.
  - simpl. rewrite open_posts_nil. f_equal. lia.
  - rewrite open_posts_cons.
    replace (d + (delta f + open_posts a)) with (d + delta f + open_posts a) by lia.
    destruct f; simpl; rewrite IH; reflexivity.
Qed.

Lemma line_depths_repeat d n : line_depths d (repeat DivClose n) = [].
Proof. revert d. induction n as [|n IH]; intros d; simpl; [reflexivity|apply IH]. Qed.

Lemma never_below_app d a b :
  never_below d (a ++ b) <-> never_below d a /\ never_below (d + open_posts a) b.
Proof.
  revert d. induction a as [|f a IH]; intros d.
  - simpl. rewrite open_posts_nil, Z.add_0_r. tauto.
  - rewrite open_posts_cons. simpl. rewrite IH.
    replace (d + delta f + open_posts a) with (d + (delta f + open_posts a)) by lia.
    tauto.
Qed.

Lemma never_below_repeat d n :
  Z.of_nat n <= d -> never_below d (repeat DivClose n).
Proof.
  revert d. induction n as [|n IH]; intros d Hd; simpl; [exact I|].
  split; [lia|apply IH; lia].
Qed.

Lemma never_below_prefix d a b : 0 <= d -> never_below d (a ++ b) -> 0 <= d + open_posts a.
Proof.
  revert d. induction a as [|f a IH]; intros d Hd.
  - rewrite open_posts_nil. lia.
  - simpl. intros [Hf Hrest]. rewrite open_posts_cons.
    specialize (IH _ Hf Hrest). lia.
Qed.

Lemma line_depths_at d o1 c p o2 :
  In (p, d + open_posts o1) (line_depths d (o1 ++ PostLine c p :: o2)).
Proof.
  rewrite line_depths_app. apply in_or_app. right. simpl. now left.
Qed.

(** *** Well-formed input: the loop follows the tree *)

Ltac bool_cases :=
  repeat match goal with
    | |- context [?a <? ?b] => destruct (Z.ltb_spec a b)
    | |- context [?a <=? ?b] => destruct (Z.leb_spec a b)
    | |- context [?a >? ?b] => rewrite (Z.gtb_ltb a b)
    end;
  simpl; try reflexivity; try lia.

Lemma filter_nothing {A} (f : A -> bool) (l : list A) :
  (forall a, In a l -> f a = false) -> List.filter f l = [].
Proof.
  induction l as [|a l IH]; simpl; intros Hf; [reflexivity|].
  rewrite (Hf a) by now left. apply IH. intros b Hb. apply Hf. now right.
Qed.

Section WellFormed.
Variable posts : list Post.
Variable cur : option Post.
Hypothesis Hlr : Forall (fun p => left p < right p) posts.
Hypothesis Hord : ForallOrdPairs in_order posts.

Lemma threaded_initial : threaded posts cur [] initial.
Proof. split; try reflexivity. simpl. split; [lia|exact I]. Qed.

(** Among the posts before [p], the ones whose pushed boundary is not
    less than [left p] are the ancestors of [p]. *)
Lemma ancestors_still_open pre p rest :
  posts = pre ++ p :: rest ->
  ancestors posts p = List.filter (still_open (left p)) pre.
Proof.
  intros Hposts. pose proof Hord as Ho. pose proof Hlr as Hl.
  rewrite Hposts in Ho, Hl.
  apply ForallOrdPairs_app_inv in Ho as (_ & Hprest & Hcross).
  inversion Hprest as [|? ? Hafter _]; subst.
  rewrite List.Forall_forall in Hafter, Hl.
  unfold ancestors.
  rewrite List.filter_app. simpl.
  replace (containsb p p) with false by (unfold containsb; bool_cases).
  rewrite (filter_nothing _ rest), app_nil_r.
  - apply filter_ext_in. intros q Hq.
    assert (Hqp : in_order q p) by (apply Hcross; [assumption|now left]).
    assert (left q < right q) by (apply Hl, in_or_app; now left).
    assert (left p < right p) by (apply Hl, in_or_app; right; now left).
    unfold in_order in Hqp. unfold containsb, still_open. bool_cases.
  - intros q Hq. specialize (Hafter q Hq). unfold in_order in Hafter.
    unfold containsb. bool_cases.
Qed.

Lemma open_after_sorted pre rest :
  posts = pre ++ rest -> StronglySorted Z.gt (map right (open_after pre)).
Proof.
  intros Hposts. pose proof Hord as Ho. rewrite Hposts in Ho.
  apply ForallOrdPairs_app_inv in Ho as (Hpre & _ & _).
  unfold open_after. destruct (last pre) as [p'|] eqn:Hlast; [|constructor].
  apply still_open_sorted; [assumption|].
  apply last_Some in Hlast as [l ->].
  apply ForallOrdPairs_app_inv in Hpre as (_ & _ & Hcross).
  intros q Hq. apply in_app_or in Hq as [Hq|[<-|[]]]; [|lia].
  destruct (Hcross q p' Hq); [now left|lia].
Qed.

Lemma open_after_next pre p rest :
  posts = pre ++ p :: rest ->
  List.filter (fun q => left p <=? right q) (open_after pre)
  = List.filter (still_open (left p)) pre.
Proof.
  intros Hposts. pose proof Hord as Ho. rewrite Hposts in Ho.
  apply ForallOrdPairs_app_inv in Ho as (_ & _ & Hcross).
  unfold open_after. destruct (last pre) as [p'|] eqn:Hlast.
  - rewrite filter_filter. apply filter_ext_in. intros q Hq.
    assert (Hp' : in_order p' p).
    { apply Hcross; [|now left]. apply list_elem_of_In. now apply last_Some_elem_of. }
    unfold in_order in Hp'. unfold still_open.
    destruct (right q - left q >? 1); bool_cases.
  - apply last_None in Hlast. subst pre. reflexivity.
Qed.

Lemma open_after_snoc pre p :
  left p < right p ->
  open_after (pre ++ [p])
  = List.filter (still_open (left p)) pre ++ (if right p - left p >? 1 then [p] else []).
Proof.
  intros Hp. unfold open_after. rewrite last_snoc, List.filter_app. simpl.
  unfold still_open at 2. destruct (right p - left p >? 1); bool_cases.
Qed.

Lemma threaded_step pre p rest s :
  posts = pre ++ p :: rest ->
  threaded posts cur pre s ->
  exists s', loop_body cur p s = (Ok tt, s') /\ threaded posts cur (pre ++ [p]) s'.
Proof.
  intros Hposts [Hlev Hdep Hopen Hlines Hdepths Hnb].
  destruct (loop_body_split cur p s) as (keep & popped & Hsplit & Hall & Htop & Hrun).
  eexists. split; [exact Hrun|].
  assert (Hp : left p < right p).
  { rewrite List.Forall_forall in Hlr. apply Hlr. rewrite Hposts.
    apply in_or_app. right. now left. }
  assert (Hkeep : keep = map right (ancestors posts p)).
  { rewrite (ancestors_still_open pre p rest Hposts), <- (open_after_next pre p rest Hposts).
    rewrite <- filter_map_right, <- Hlev, Hsplit.
    symmetry. apply sorted_keep; try assumption.
    rewrite <- Hsplit, Hlev. now apply (open_after_sorted pre (p :: rest)). }
  assert (Hn : length (levels s) = (length keep + length popped)%nat)
    by now rewrite Hsplit, length_app.
  assert (Hk : length keep = length (ancestors posts p))
    by now rewrite Hkeep, length_map.
  assert (Hnew : levels (after_post cur p (closed_by (length popped) keep s))
                 = map right (open_after (pre ++ [p]))).
  { rewrite (open_after_snoc pre p Hp), map_app,
      <- (ancestors_still_open pre p rest Hposts), <- Hkeep.
    unfold after_post, closed_by.
    destruct (right p - left p >? 1); simpl; [reflexivity|now rewrite app_nil_r]. }
  unfold after_post, closed_by in *.
  destruct (right p - left p >? 1); simpl in *; split; simpl; try assumption.
  - reflexivity.
  - rewrite !open_posts_app, open_posts_repeat, Hopen, Hn, length_app.
    unfold post_line. rewrite open_posts_cons, open_posts_nil. simpl. lia.
  - rewrite !lines_app, lines_repeat, Hlines, map_app, app_nil_r. reflexivity.
  - rewrite !line_depths_app, line_depths_repeat, Hdepths, map_app,
      !open_posts_app, open_posts_repeat, Hopen.
    simpl. rewrite ?app_nil_r. do 3 f_equal. lia.
  - apply never_below_app. split.
    + apply never_below_app. split; [assumption|].
      apply never_below_repeat. rewrite Hopen. lia.
    + rewrite open_posts_app, open_posts_repeat, Hopen. simpl. split; [lia|exact I].
  - lia.
  - rewrite !open_posts_app, open_posts_repeat, Hopen, Hn.
    unfold post_line. rewrite !open_posts_cons, open_posts_nil. simpl. lia.
  - rewrite !lines_app, lines_repeat, Hlines, map_app, !app_nil_r. reflexivity.
  - rewrite !line_depths_app, line_depths_repeat, Hdepths, map_app,
      !open_posts_app, open_posts_repeat, Hopen.
    simpl. rewrite ?app_nil_r. do 3 f_equal. lia.
  - apply never_below_app. split; [apply never_below_app; split|].
    + apply never_below_app. split; [assumption|].
      apply never_below_repeat. rewrite Hopen. lia.
    + rewrite open_posts_app, open_posts_repeat, Hopen. simpl. split; [lia|exact I].
    + rewrite !open_posts_app, open_posts_repeat, Hopen.
      unfold post_line. rewrite open_posts_cons, open_posts_nil. simpl. split; [lia|exact I].
Qed.

Lemma threaded_run rest :
  forall pre s,
    posts = pre ++ rest ->
    threaded posts cur pre s ->
    exists s', for_each rest (loop_body cur) s = (Ok tt, s') /\ threaded posts cur posts s'.
Proof.
  induction rest as [|p rest IH]; intros pre s Hposts Hth.
  - exists s. split; [reflexivity|]. rewrite app_nil_r in Hposts. now subst pre.
  - destruct (threaded_step pre p rest s Hposts Hth) as (s1 & Hrun1 & Hth1).
    destruct (IH (pre ++ [p]) s1) as (s2 & Hrun2 & Hth2);
      [now rewrite <- app_assoc|assumption|].
    exists s2. split; [|assumption].
    simpl. unfold bind. rewrite Hrun1. exact Hrun2.
Qed.

End WellFormed.

(** The pieces written for a well-formed nested-set sequence: the line of
    each post once, in order, and one close tag per post besides the
    wrapper's; where the line of a post starts, the containers of posts
    that are open are as many as the post has ancestors; and no close tag
    but the last, which closes the wrapper, comes with no container of a
    post open. *)
Lemma make_tree_well_formed_pieces {site : Site} posts cur :
  well_formed posts ->
  exists out,
    make_tree_html posts cur = Ok out /\
    make_tree posts cur = Ok (render out) /\
    lines out = map (post_line cur) posts /\
    opens out = S (length posts) /\
    closes out = S (length posts) /\
    (forall o1 c p o2,
        out = o1 ++ PostLine c p :: o2 ->
        open_posts o1 = Z.of_nat (length (ancestors posts p))) /\
    (forall o1 o2, out = o1 ++ o2 -> o2 <> [] -> 0 <= open_posts o1).
Proof.
  intros Hwf. apply well_formed_in_order in Hwf as [Hlr Hord].
  destruct (threaded_run posts cur Hlr Hord posts [] initial eq_refl
              (threaded_initial posts cur))
    as (s & Hrun & [Hlev Hdep Hopen Hlines Hdepths Hnb]).
  destruct (make_tree_html_counts cur posts) as (out & Hout & Hl & Ho & Hc).
  assert (Hshape : out = (html s ++ repeat DivClose (Z.to_nat (depth s))) ++ [DivClose]).
  { unfold make_tree_html, make_tree_body, bind in Hout. rewrite Hrun in Hout.
    simpl in Hout. now injection Hout as <-. }
  exists out. split; [exact Hout|]. split; [unfold make_tree; now rewrite Hout|].
  do 3 (split; [assumption|]). split.
  - intros o1 c p o2 Hsplit.
    pose proof (line_depths_at 0 o1 c p o2) as Hin.
    rewrite <- Hsplit, Hshape, !line_depths_app, line_depths_repeat, Hdepths in Hin.
    simpl in Hin. rewrite !app_nil_r in Hin.
    apply in_map_iff in Hin as (q & Hq & _).
    injection Hq as -> Hd. lia.
  - intros o1 o2 Hsplit Hne.
    destruct (exists_last Hne) as (o2' & x & ->).
    rewrite Hshape, app_assoc in Hsplit. apply app_inj_tail in Hsplit as [Hbody _].
    assert (Hnb' : never_below 0 (o1 ++ o2')).
    { rewrite <- Hbody. apply never_below_app. split; [assumption|].
      apply never_below_repeat. rewrite Hopen, Hdep, Nat2Z.id. lia. }
    apply never_below_prefix in Hnb'; lia.
Qed.

(** The thread of the specification: the container of the parent closes
    only after both replies have opened and closed. *)
Example make_tree_parent_closes_last :
  make_tree_html
    [example_post 1 6 "welcome"; example_post 2 3 "re: welcome"; example_post 4 5 "thanks"]
    None
  = Ok [TreeOpen;
        PostLine false (example_post 1 6 "welcome");
        PostLine false (example_post 2 3 "re: welcome"); DivClose;
        PostLine false (example_post 4 5 "thanks"); DivClose;
        DivClose;
        DivClose].
Proof. reflexivity. Qed.

End ForumSpec.

(** ** The shared account store *)

Module ProsodySpec.
Import Py ProsodyAuth.

(** *** Writing a row *)

(** [save] decides the type as the rule table of the specification does. *)
Lemma save_sets_derived_type self db :
  save (self, db)
  = Model_save (with_type self (derived_type (store self) (key self)), db).
Proof.
  unfold save, bind, get, set_self_type, modify, derived_type. simpl.
  destruct ((store self =? "lastlog")%string && (key self =? "timestamp")%string);
    [reflexivity|].
  destruct ((store self =? "accounts")%string && (key self =? "iterations")%string);
    [reflexivity|].
  destruct (store self =? "roster")%string; [reflexivity|].
  destruct (key self =? "persistence")%string; reflexivity.
Qed.

(** [Model.save] stores the instance as it is, but for a new primary key. *)
Lemma Model_save_stores self db :
  match Model_save (self, db) with
  | (Ok _, (self', db')) =>
      In self' db' /\
      (self' = self \/ exists i, self' = with_pk self i)
  | (Raise e, (self', db')) => e = IntegrityError /\ self' = self /\ db' = db
  end.
Proof.
  unfold Model_save. destruct (pk self) as [i|] eqn:Hpk.
  - destruct (existsb (has_pk i) db) eqn:Hex.
    + match goal with |- context [if existsb ?f db then _ else _] =>
        destruct (existsb f db) end; [now repeat split|].
      split; [|now left].
      apply existsb_exists in Hex as (r & Hr & Hi).
      apply in_map_iff. exists r. rewrite Hi. now split.
    + match goal with |- context [if existsb ?f db then _ else _] =>
        destruct (existsb f db) end; [now repeat split|].
      split; [|now left]. apply in_or_app. right. now left.
  - match goal with |- context [if existsb ?f db then _ else _] =>
      destruct (existsb f db) end; [now repeat split|].
    split; [|right; eauto]. apply in_or_app. right. now left.
Qed.

(** What [save] leaves: the instance stored with the derived type, or the
    table untouched. *)
Lemma save_stores self db :
  match save (self, db) with
  | (Ok _, (self', db')) =>
      In self' db' /\
      type self' = derived_type (store self) (key self) /\
      user self' = user self /\
      store self' = store self /\ key self' = key self /\ value self' = value self
  | (Raise e, (_, db')) => e = IntegrityError /\ db' = db
  end.
Proof.
  rewrite save_sets_derived_type.
  pose proof (Model_save_stores
                (with_type self (derived_type (store self) (key self))) db) as Hm.
  destruct (Model_save _) as [[[]|e] [self' db']].
  - destruct Hm as [Hin [->|[i ->]]]; repeat split; assumption.
  - destruct Hm as (-> & _ & ->). now split.
Qed.

(** [Model.save] fails only on a row with the same user, store and key. *)
Lemma Model_save_raises self db e st :
  Model_save (self, db) = (Raise e, st) ->
  exists r, In r db /\ same_unique_key r self = true.
Proof.
  unfold Model_save. destruct (pk self) as [i|].
  - destruct (existsb (has_pk i) db).
    + destruct (existsb (fun r => negb (has_pk i r) && same_unique_key r self) db) eqn:Hex;
        [|discriminate].
      intros _. apply existsb_exists in Hex as (r & Hr & Hc).
      apply andb_true_iff in Hc as [_ Hc]. eauto.
    + destruct (existsb (fun r => same_unique_key r self) db) eqn:Hex; [|discriminate].
      intros _. apply existsb_exists in Hex as (r & Hr & Hc). eauto.
  - destruct (existsb (fun r => same_unique_key r self) db) eqn:Hex; [|discriminate].
    intros _. apply existsb_exists in Hex as (r & Hr & Hc). eauto.
Qed.

(** The type of the instance once [save] has run, stored or not. *)
Lemma save_type self db :
  type (fst (snd (save (self, db)))) = derived_type (store self) (key self).
Proof.
  rewrite save_sets_derived_type.
  pose proof (Model_save_stores
                (with_type self (derived_type (store self) (key self))) db) as Hm.
  destruct (Model_save _) as [[[]|e] [self' db']]; simpl.
  - now destruct Hm as [_ [->|[i ->]]].
  - now destruct Hm as (_ & -> & _).
Qed.

(** [save] stores the row unless a row of the table has its user, store
    and key. *)
Lemma save_succeeds self (db : table) :
  (forall r, In r db -> same_unique_key r self = false) ->
  exists self' db', save (self, db) = (Ok tt, (self', db')).
Proof.
  intros Hfree. rewrite save_sets_derived_type.
  destruct (Model_save _) as [[[]|e] [self' db']] eqn:Hm; [eauto|].
  apply Model_save_raises in Hm as (r & Hr & Hc).
  unfold same_unique_key in Hc. simpl in Hc.
  specialize (Hfree r Hr). unfold same_unique_key in Hfree. congruence.
Qed.

(** C6.  The type of a row saved through [save] is what the ordered rule
    table gives for its store and key, and nothing else enters: once
    [save] has run the instance has that type, stored or not; when [save]
    stores the row, the row is in the table with that type and with the
    store, key and value of the instance; [save] fails only when a row of
    the table has the same user, store and key, and then leaves the table
    as it was, and it does store the row when there is no such row.  The
    type that the instance had before plays no part, [save] does the same
    for any other; in particular a row of the store [roster] is saved
    with type [json]. *)
Theorem save_type_from_store_and_key self db :
  type (fst (snd (save (self, db)))) = derived_type (store self) (key self) /\
  match save (self, db) with
  | (Ok _, (self', db')) =>
      In self' db' /\
      type self' = derived_type (store self) (key self) /\
      store self' = store self /\ key self' = key self /\ value self' = value self
  | (Raise e, (_, db')) =>
      e = IntegrityError /\ db' = db /\
      exists r, In r db /\ same_unique_key r self = true
  end /\
  (forall t, save (with_type self t, db) = save (self, db)) /\
  ((forall r, In r db -> same_unique_key r self = false) ->
   exists self' db',
     save (self, db) = (Ok tt, (self', db')) /\
     In self' db' /\ type self' = derived_type (store self) (key self)) /\
  (store self = "roster" -> type (fst (snd (save (self, db)))) = "json").
Proof.
  split; [apply save_type|]. split; [|split; [|split]].
  - pose proof (save_stores self db) as Hs.
    destruct (save (self, db)) as [[[]|e] [self' db']] eqn:Hsave.
    + destruct Hs as (? & ? & ? & ? & ? & ?). repeat split; assumption.
    + destruct Hs as [-> ->]. repeat split.
      rewrite save_sets_derived_type in Hsave.
      apply Model_save_raises in Hsave as (r & Hr & Hc). exists r. now split.
  - intros t. rewrite !save_sets_derived_type. reflexivity.
  - intros Hfree. destruct (save_succeeds self db Hfree) as (self' & db' & Hsave).
    exists self', db'. split; [exact Hsave|].
    pose proof (save_stores self db) as Hs.
    destruct (save (self, db)) as [[[]|e] [s d]]; [|discriminate Hsave].
    injection Hsave as -> ->. destruct Hs as (? & ? & _). now split.
  - intros Hroster. rewrite save_type, Hroster. reflexivity.
Qed.

(** C6 for a roster row that comes with the type [boolean], saved to a
    table that holds another user's row: it is stored as [json]. *)
Lemma save_type_from_store_and_key_witness :
  let db := [{| pk := Some 1; host := "example.org"; user := "bob"; store := "roster";
                key := "alice@example.org"; type := "json"; value := "{}" |}] in
  exists self' db',
    save (example_row "alice" "roster" "bob@example.org" "boolean" "{}", db)
    = (Ok tt, (self', db')) /\
    In self' db' /\ type self' = "json".
Proof.
  intros db.
  destruct (save_type_from_store_and_key
              (example_row "alice" "roster" "bob@example.org" "boolean" "{}") db)
    as (_ & _ & _ & Hstores & _).
  destruct Hstores as (self' & db' & Hsave & Hin & Htype).
  - intros r [<-|[]]. reflexivity.
  - exists self', db'. split; [exact Hsave|]. split; [exact Hin|]. exact Htype.
Defined.

(** *** Reading a store *)

Lemma last_with_key_cons k r rows :
  last_with_key k (r :: rows) =
  match last_with_key k rows with
  | Some r' => Some r'
  | None => if (key r =? k)%string then Some r else None
  end.
Proof.
  unfold last_with_key. simpl.
  destruct (key r =? k)%string; [|now destruct (last _)].
  rewrite last_cons. reflexivity.
Qed.

Lemma last_with_key_In k r rows :
  last_with_key k rows = Some r -> In r rows /\ key r = k.
Proof.
  unfold last_with_key. intros Hlast.
  apply last_Some_elem_of, list_elem_of_In, filter_In in Hlast as [Hin Hk].
  split; [assumption|now apply String.eqb_eq].
Qed.

Lemma last_with_key_None k rows :
  last_with_key k rows = None -> forall r, In r rows -> key r <> k.
Proof.
  unfold last_with_key. intros Hlast r Hin Hk.
  apply last_None in Hlast.
  assert (Hr : In r (List.filter (fun r => (key r =? k)%string) rows))
    by (apply filter_In; split; [assumption|now apply String.eqb_eq]).
  rewrite Hlast in Hr. contradiction.
Qed.

(** A dictionary built from rows holds, for each key, what the last row
    with that key gives. *)
Lemma dict_rows_lookup {V} (f : Prosody -> V) rows (d : gmap string V) k :
  fold_left (fun d kv => <[kv.1 := kv.2]> d) (map (fun r => (key r, f r)) rows) d !! k
  = match last_with_key k rows with
    | Some r => Some (f r)
    | None => d !! k
    end.
Proof.
  revert d. induction rows as [|r rows IH]; intros d; [reflexivity|].
  simpl. rewrite IH, last_with_key_cons.
  destruct (last_with_key k rows); [reflexivity|].
  destruct (String.eqb_spec (key r) k) as [<-|Hne].
  - apply lookup_insert_eq.
  - now apply lookup_insert_ne.
Qed.

Lemma filter_with_type f (retype : Prosody -> string) db :
  (forall r, f (with_type r (retype r)) = f r) ->
  List.filter f (map (fun r => with_type r (retype r)) db)
  = map (fun r => with_type r (retype r)) (List.filter f db).
Proof.
  intros Hf. induction db as [|r db IH]; simpl; [reflexivity|].
  rewrite Hf. destruct (f r); simpl; now rewrite IH.
Qed.

(** C8.  [get_data_store] never raises and leaves the table alone.  The
    mapping it returns has a key exactly for the keys of the rows whose
    user and host equal the arguments up to case and whose store equals
    the argument; the value under a key is the text of such a row (the
    last one with that key), whatever the types of the rows say; with no
    such row the mapping is empty. *)
Theorem get_data_store_mapping username_ domain store_ db :
  let rows := List.filter (selected username_ domain store_) db in
  exists data,
    get_data_store username_ domain store_ db = (Ok data, db) /\
    (forall k, data !! k = value <$> last_with_key k rows) /\
    (forall k, is_Some (data !! k) <-> exists r, In r rows /\ key r = k) /\
    (forall k v, data !! k = Some v ->
                 exists r, In r rows /\ key r = k /\ value r = v) /\
    (forall r, In r rows <->
               In r db /\ UPPER (user r) = UPPER username_ /\
               UPPER (host r) = UPPER domain /\ store r = store_) /\
    (rows = [] -> data = ∅) /\
    (forall retype,
        let db' := map (fun r => with_type r (retype r)) db in
        get_data_store username_ domain store_ db' = (Ok data, db')).
Proof.
  intros rows.
  assert (Hlookup : forall k,
             dict (map (fun r => (key r, value r)) rows) !! k
             = value <$> last_with_key k rows).
  { intros k. unfold dict. rewrite dict_rows_lookup.
    destruct (last_with_key k rows); reflexivity. }
  exists (dict (map (fun r => (key r, value r)) rows)).
  split; [reflexivity|]. split; [exact Hlookup|]. split; [|split; [|split; [|split]]].
  - intros k. rewrite Hlookup. split.
    + intros [v Hv]. destruct (last_with_key k rows) as [r|] eqn:Hlast; [|discriminate].
      exists r. now apply last_with_key_In.
    + intros (r & Hin & Hk). destruct (last_with_key k rows) as [r'|] eqn:Hlast; [now eexists|].
      exfalso. now apply (last_with_key_None k rows Hlast r).
  - intros k v. rewrite Hlookup. intros Hv.
    destruct (last_with_key k rows) as [r|] eqn:Hlast; [|discriminate].
    injection Hv as <-. exists r.
    apply last_with_key_In in Hlast as [Hin Hk]. now repeat split.
  - intros r. unfold rows, selected. rewrite filter_In, !andb_true_iff, !String.eqb_eq. tauto.
  - intros Hrows. rewrite Hrows. reflexivity.
  - intros retype db'. unfold get_data_store, bind, get, ret. do 2 f_equal.
    unfold db', rows. rewrite filter_with_type by reflexivity.
    rewrite map_map. reflexivity.
Qed.

(** C8 at a table with no row for the user, and at one where the user is
    spelled in another case. *)
Lemma get_data_store_mapping_witness :
  get_data_store "alice" "example.org" "accounts"
    [example_row "bob" "accounts" "iterations" "number" "4096"]
  = (Ok ∅, [example_row "bob" "accounts" "iterations" "number" "4096"]) /\
  exists data,
    get_data_store "alice" "EXAMPLE.org" "accounts"
      [example_row "Alice" "accounts" "iterations" "number" "4096"]
    = (Ok data, [example_row "Alice" "accounts" "iterations" "number" "4096"]) /\
    data !! "iterations" = Some "4096".
Proof.
  split.
  - destruct (get_data_store_mapping "alice" "example.org" "accounts"
                [example_row "bob" "accounts" "iterations" "number" "4096"])
      as (data & Hrun & _ & _ & _ & _ & Hempty & _).
    rewrite Hrun, Hempty; reflexivity.
  - destruct (get_data_store_mapping "alice" "EXAMPLE.org" "accounts"
                [example_row "Alice" "accounts" "iterations" "number" "4096"])
      as (data & Hrun & Hlookup & _).
    exists data. split; [exact Hrun|]. rewrite Hlookup. reflexivity.
Defined.

(** *** The lastlog accessor *)

Lemma int_raises text e : int text = Raise e -> e = ValueError.
Proof.
  unfold int. destruct (match rstrip (lstrip text) with "" => _ | String _ _ => _ end);
    [discriminate|congruence].
Qed.

Lemma lastlog_item_run item u d :
  _lastlog_data u = Some d ->
  lastlog_item item u =
  match lastlog_value item with
  | Some v => (Ok tt, {| username := username u; _lastlog_data := Some (<[key item := v]> d) |})
  | None => (Raise ValueError, u)
  end.
Proof.
  intros Hd. unfold lastlog_item, lastlog_value.
  destruct (type item =? "number")%string.
  - unfold bind, lift. destruct (int (value item)) as [n|e] eqn:Hint.
    + unfold lastlog_data_setitem, bind, get. rewrite Hd. reflexivity.
    + now rewrite (int_raises _ _ Hint).
  - unfold lastlog_data_setitem, bind, get. rewrite Hd. reflexivity.
Qed.

Lemma integer_if_number_value r : integer_if_number r -> is_Some (lastlog_value r).
Proof.
  unfold integer_if_number, lastlog_value. intros Hr.
  destruct (String.eqb_spec (type r) "number") as [Ht|_]; [|now eexists].
  destruct (Hr Ht) as [n ->]. now eexists.
Qed.

(** Loading rows that all convert fills the cache, the last row with a
    key deciding what the key holds. *)
Lemma load_rows rows :
  forall u d,
    _lastlog_data u = Some d ->
    Forall integer_if_number rows ->
    exists d',
      for_each rows lastlog_item u
      = (Ok tt, {| username := username u; _lastlog_data := Some d' |}) /\
      forall k, d' !! k = match last_with_key k rows with
                          | Some r => lastlog_value r
                          | None => d !! k
                          end.
Proof.
  induction rows as [|r rows IH]; intros u d Hd Hall.
  - exists d. split; [destruct u; simpl in *; now subst|reflexivity].
  - apply Forall_cons in Hall as [Hr Hall].
    destruct (integer_if_number_value r Hr) as [v Hv].
    destruct (IH {| username := username u; _lastlog_data := Some (<[key r := v]> d) |}
                (<[key r := v]> d) eq_refl Hall) as (d' & Hrun & Hlookup).
    exists d'. split.
    + simpl. unfold bind. rewrite (lastlog_item_run r u d Hd), Hv. exact Hrun.
    + intros k. rewrite Hlookup, last_with_key_cons.
      destruct (last_with_key k rows); [reflexivity|].
      destruct (String.eqb_spec (key r) k) as [<-|Hne].
      * now rewrite lookup_insert_eq.
      * now apply lookup_insert_ne.
Qed.

(** The first call on an instance, when all rows convert. *)
Lemma _get_lastlog_first db k u :
  _lastlog_data u = None ->
  Forall integer_if_number (objects_filter_lastlog db (username u)) ->
  exists u',
    _get_lastlog db k u
    = (Ok (match last_with_key k (objects_filter_lastlog db (username u)) with
           | Some r => lastlog_value r
           | None => None
           end), u').
Proof.
  intros Hnone Hall.
  destruct (load_rows (objects_filter_lastlog db (username u))
              {| username := username u; _lastlog_data := Some ∅ |} ∅ eq_refl Hall)
    as (d' & Hrun & Hlookup).
  eexists. unfold _get_lastlog, bind, get. rewrite Hnone.
  unfold set_lastlog_data, modify. simpl in *. rewrite Hrun. simpl.
  unfold ret. rewrite Hlookup.
  destruct (last_with_key k _); reflexivity.
Qed.

(** C7, as stated, fails: an instance that has loaded its lastlog store
    before the row is saved answers from what it loaded, here [None]. *)
Lemma lastlog_round_trip_on_loaded_instance :
  ~ (forall self db self' db' u,
        store self = "lastlog" ->
        key self = "timestamp" ->
        value self = "1000" ->
        save (self, db) = (Ok tt, (self', db')) ->
        iexact (user self) (username u) = true ->
        exists u', _get_lastlog db' "timestamp" u = (Ok (Some (PyInt 1000)), u')).
Proof.
  intros Hclaim.
  pose (self := example_row "alice" "lastlog" "timestamp" "string" "1000").
  destruct (Hclaim self [] (with_pk (with_type self "number") 1)
              [with_pk (with_type self "number") 1]
              {| username := "alice"; _lastlog_data := Some ∅ |})
    as [u' Hrun]; try reflexivity.
  vm_compute in Hrun. discriminate.
Qed.

(** Two more ways for the round trip to miss, on an instance not loaded
    yet.  Another number row of the user's lastlog store that holds no
    integer makes the accessor fail; and a row of another spelling of the
    user name with the key ["timestamp"], coming later in the table,
    decides the answer (the row saved replaces an earlier one in place). *)
Example lastlog_round_trip_other_row_fails :
  let saved :=
    save (example_row "alice" "lastlog" "timestamp" "string" "1000",
          [{| pk := Some 1; host := "example.org"; user := "alice"; store := "lastlog";
              key := "since"; type := "number"; value := "soon" |}]) in
  fst saved = Ok tt /\
  fst (_get_lastlog (snd (snd saved)) "timestamp"
         {| username := "alice"; _lastlog_data := None |})
  = Raise ValueError.
Proof. vm_compute. split; reflexivity. Qed.

Example lastlog_round_trip_later_row_decides :
  let saved :=
    save ({| pk := Some 1; host := "example.org"; user := "alice"; store := "lastlog";
             key := "timestamp"; type := "number"; value := "1000" |},
          [{| pk := Some 1; host := "example.org"; user := "alice"; store := "lastlog";
              key := "timestamp"; type := "number"; value := "999" |};
           {| pk := Some 2; host := "example.org"; user := "ALICE"; store := "lastlog";
              key := "timestamp"; type := "number"; value := "2000" |}]) in
  fst saved = Ok tt /\
  fst (_get_lastlog (snd (snd saved)) "timestamp"
         {| username := "alice"; _lastlog_data := None |})
  = Ok (Some (PyInt 2000)).
Proof. vm_compute. split; reflexivity. Qed.

(** C7, amended.  Once [save] has stored a row with store [lastlog], key
    [timestamp] and value ["1000"] for a user, the first call of the
    typed accessor on an instance of that user, one that has not loaded
    its lastlog store yet, gives the integer [1000] for ["timestamp"],
    not the text: [save] records the type [number] and the accessor
    converts such rows.  This supposes that the other lastlog rows of the
    user do not stand in the way: none has the key ["timestamp"], and the
    number rows among them hold integers. *)
Theorem lastlog_timestamp_round_trip self db self' db' u :
  store self = "lastlog" ->
  key self = "timestamp" ->
  value self = "1000" ->
  save (self, db) = (Ok tt, (self', db')) ->
  iexact (user self) (username u) = true ->
  _lastlog_data u = None ->
  (forall r, In r (objects_filter_lastlog db' (username u)) -> r <> self' ->
             key r <> "timestamp" /\ integer_if_number r) ->
  type self' = "number" /\
  exists u', _get_lastlog db' "timestamp" u = (Ok (Some (PyInt 1000)), u').
Proof.
  intros Hstore Hkey Hvalue Hsave Huser Hnone Hothers.
  pose proof (save_stores self db) as Hsaved.
  rewrite Hsave in Hsaved. destruct Hsaved as (Hin & Htype & Huser' & Hs & Hk & Hv).
  rewrite Hstore, Hkey in Htype. change (derived_type "lastlog" "timestamp") with "number" in Htype.
  split; [exact Htype|].
  assert (Hvalue' : lastlog_value self' = Some (PyInt 1000)).
  { unfold lastlog_value. rewrite Htype, Hv, Hvalue. reflexivity. }
  set (rows := objects_filter_lastlog db' (username u)) in *.
  assert (Hrow : In self' rows).
  { apply filter_In. split; [assumption|].
    rewrite Huser', Huser, Hs, Hstore. reflexivity. }
  assert (Hall : Forall integer_if_number rows).
  { apply List.Forall_forall. intros r Hr.
    destruct (decide (r = self')) as [->|Hne]; [|now apply Hothers].
    intros _. exists 1000. rewrite Hv, Hvalue. reflexivity. }
  destruct (_get_lastlog_first db' "timestamp" u Hnone Hall) as [u' Hrun].
  exists u'. rewrite Hrun. fold rows.
  destruct (last_with_key "timestamp" rows) as [r|] eqn:Hlast.
  - apply last_with_key_In in Hlast as [Hr Hrk].
    destruct (decide (r = self')) as [->|Hne]; [now rewrite Hvalue'|].
    destruct (Hothers r Hr Hne) as [Hnk _]. contradiction.
  - exfalso. apply (last_with_key_None _ _ Hlast self' Hrow). now rewrite Hk.
Qed.

(** The amended C7 on an empty table, for the user [alice] looked up as
    [Alice]. *)
Lemma lastlog_timestamp_round_trip_witness :
  exists self' db' u',
    save (example_row "alice" "lastlog" "timestamp" "string" "1000", [])
    = (Ok tt, (self', db')) /\
    type self' = "number" /\
    _get_lastlog db' "timestamp" {| username := "Alice"; _lastlog_data := None |}
    = (Ok (Some (PyInt 1000)), u').
Proof.
  pose (self := example_row "alice" "lastlog" "timestamp" "string" "1000").
  pose (self' := with_pk (with_type self "number") 1).
  destruct (lastlog_timestamp_round_trip self [] self' [self']
              {| username := "Alice"; _lastlog_data := None |})
    as (Htype & u' & Hrun); try reflexivity.
  - intros r [<-|[]] Hne. congruence.
  - exists self', [self'], u'. repeat split; assumption.
Defined.

(** *** Presence *)

Lemma unique_key_row rows a b :
  NoDup (map key rows) -> In a rows -> In b rows -> key a = key b -> a = b.
Proof.
  induction rows as [|r rows IH]; simpl; intros Hnd Ha Hb Hk; [contradiction|].
  apply NoDup_cons in Hnd as [Hr Hnd].
  destruct Ha as [<-|Ha], Hb as [<-|Hb]; try reflexivity.
  - exfalso. apply Hr. rewrite Hk. apply list_elem_of_In, in_map. assumption.
  - exfalso. apply Hr. rewrite <- Hk. apply list_elem_of_In, in_map. assumption.
  - now apply IH.
Qed.

(** C10, as stated, fails: for a user whose only lastlog row is a number
    row that holds no integer, [xmpp_online] raises [ValueError] although
    the key ["event"] is absent. *)
Lemma xmpp_online_raises :
  ~ (forall db u,
        exists b u',
          xmpp_online db u = (Ok b, u') /\
          (b = true <->
           exists r, In r (objects_filter_lastlog db (username u)) /\
                     key r = "event" /\ value r = "login")).
Proof.
  intros Hclaim.
  destruct (Hclaim [example_row "alice" "lastlog" "timestamp" "number" "1447.5"]
              {| username := "alice"; _lastlog_data := None |})
    as (b & u' & Hrun & _).
  vm_compute in Hrun. discriminate.
Qed.

(** Two more ways for the store and the answer to differ.  Rows of two
    spellings of the user name may share a key, and the later one decides;
    and an instance that has loaded its store does not read the table
    again. *)
Example xmpp_online_later_row_decides :
  exists u',
    xmpp_online
      [example_row "Alice" "lastlog" "event" "string" "login";
       example_row "alice" "lastlog" "event" "string" "logout"]
      {| username := "alice"; _lastlog_data := None |} = (Ok false, u').
Proof. eexists. vm_compute. reflexivity. Qed.

Example xmpp_online_reads_cache :
  xmpp_online
    [example_row "alice" "lastlog" "event" "string" "login"]
    {| username := "alice"; _lastlog_data := Some ∅ |}
  = (Ok false, {| username := "alice"; _lastlog_data := Some ∅ |}).
Proof. reflexivity. Qed.

(** C10, amended.  On an instance that has not loaded its lastlog store
    yet, when the number rows of the store hold integers and no two rows
    of the store have the same key, [xmpp_online] does not raise, and it
    is [True] exactly when the store has a row with key ["event"] and
    value ["login"]; so it is [False] for a store without rows and for
    one without that key. *)
Theorem xmpp_online_iff_event_login db u :
  _lastlog_data u = None ->
  Forall integer_if_number (objects_filter_lastlog db (username u)) ->
  NoDup (map key (objects_filter_lastlog db (username u))) ->
  exists b u',
    xmpp_online db u = (Ok b, u') /\
    (b = true <->
     exists r, In r (objects_filter_lastlog db (username u)) /\
               key r = "event" /\ value r = "login").
Proof.
  intros Hnone Hall Hnd.
  destruct (_get_lastlog_first db "event" u Hnone Hall) as [u' Hrun].
  set (rows := objects_filter_lastlog db (username u)) in *.
  exists (eq_str (match last_with_key "event" rows with
                  | Some r => lastlog_value r
                  | None => None
                  end) "login"), u'.
  split.
  - unfold xmpp_online, bind. rewrite Hrun. unfold ret. now destruct (eq_str _ _).
  - destruct (last_with_key "event" rows) as [r|] eqn:Hlast.
    + apply last_with_key_In in Hlast as [Hr Hk].
      unfold lastlog_value. split.
      * intros Heq. exists r. split; [assumption|]. split; [assumption|].
        destruct (type r =? "number")%string; [now destruct (int (value r))|].
        simpl in Heq. now apply String.eqb_eq.
      * intros (r0 & Hr0 & Hk0 & Hv0).
        assert (r0 = r) as -> by (apply (unique_key_row rows); congruence).
        destruct (String.eqb_spec (type r) "number") as [Ht|_].
        -- rewrite List.Forall_forall in Hall.
           destruct (Hall r Hr Ht) as [n Hn]. rewrite Hv0 in Hn. discriminate.
        -- simpl. now apply String.eqb_eq.
    + simpl. split; [discriminate|].
      intros (r0 & Hr0 & Hk0 & _). exfalso.
      now apply (last_with_key_None _ _ Hlast r0).
Qed.

(** The amended C10 for a user logged in, and for one without rows. *)
Lemma xmpp_online_iff_event_login_witness :
  (exists u',
      xmpp_online
        [example_row "alice" "lastlog" "event" "string" "login";
         example_row "alice" "lastlog" "timestamp" "number" "1447000000"]
        {| username := "alice"; _lastlog_data := None |} = (Ok true, u')) /\
  (exists u',
      xmpp_online [] {| username := "alice"; _lastlog_data := None |} = (Ok false, u')).
Proof.
  split.
  - destruct (xmpp_online_iff_event_login
                [example_row "alice" "lastlog" "event" "string" "login";
                 example_row "alice" "lastlog" "timestamp" "number" "1447000000"]
                {| username := "alice"; _lastlog_data := None |})
      as (b & u' & Hrun & Hiff).
    + reflexivity.
    + set (rows := objects_filter_lastlog _ _). vm_compute in rows. subst rows.
      repeat apply Forall_cons_2; try apply Forall_nil_2;
        intros Ht; first [discriminate Ht | eexists; reflexivity].
    + set (rows := objects_filter_lastlog _ _). vm_compute in rows. subst rows.
      simpl. apply NoDup_cons_2; [|apply NoDup_cons_2; [|apply NoDup_nil_2]];
        intros Hin; apply list_elem_of_In in Hin; simpl in Hin; now intuition.
    + exists u'. rewrite Hrun. f_equal. f_equal. apply Hiff.
      eexists. split; [left; reflexivity|split; reflexivity].
  - destruct (xmpp_online_iff_event_login [] {| username := "alice"; _lastlog_data := None |})
      as (b & u' & Hrun & Hiff).
    + reflexivity.
    + constructor.
    + constructor.
    + exists u'. rewrite Hrun. f_equal. f_equal.
      destruct b; [|reflexivity].
      destruct (proj1 Hiff eq_refl) as (r & [] & _).
Defined.

End ProsodySpec.

(** ** More about the tree renderer *)

Module ForumMoreSpec.
Import Py Forum ForumMore ForumSpec.

Lemma no_tree_open_repeat n : no_tree_open (repeat DivClose n).
Proof. induction n; simpl; constructor; auto. Qed.

Lemma loop_body_in_step cur p s :
  in_step s ->
  exists s' ext,
    loop_body cur p s = (Ok tt, s') /\ in_step s' /\
    html s' = html s ++ ext /\ no_tree_open ext.
Proof.
  intros (Hnb & Hopen & Hdep).
  destruct (loop_body_split cur p s) as (keep & popped & Hsplit & _ & _ & Hrun).
  assert (Hn : length (levels s) = (length keep + length popped)%nat)
    by now rewrite Hsplit, length_app.
  assert (Hclosed : never_below 0 (html s ++ repeat DivClose (length popped))).
  { apply never_below_app. split; [assumption|].
    apply never_below_repeat. rewrite Hopen. lia. }
  unfold after_post, closed_by in Hrun. simpl in Hrun.
  destruct (right p - left p >? 1).
  - eexists. exists (repeat DivClose (length popped) ++ [post_line cur p]).
    split; [exact Hrun|]. simpl. split; [|split].
    + split; [|split]; simpl.
      * apply never_below_app. split; [assumption|].
        rewrite open_posts_app, open_posts_repeat, Hopen. simpl. split; [lia|exact I].
      * rewrite !open_posts_app, open_posts_repeat, Hopen, Hn, length_app.
        unfold post_line. rewrite open_posts_cons, open_posts_nil. simpl. lia.
      * reflexivity.
    + now rewrite app_assoc.
    + apply Forall_app. split; [apply no_tree_open_repeat|repeat constructor].
  - eexists. exists (repeat DivClose (length popped) ++ [post_line cur p; DivClose]).
    split; [exact Hrun|]. simpl. split; [|split].
    + split; [|split]; simpl.
      * apply never_below_app. split; [apply never_below_app; split; [assumption|]|].
        -- rewrite open_posts_app, open_posts_repeat, Hopen. simpl. split; [lia|exact I].
        -- rewrite !open_posts_app, open_posts_repeat, Hopen.
           unfold post_line. rewrite open_posts_cons, open_posts_nil. simpl.
           split; [lia|exact I].
      * rewrite !open_posts_app, open_posts_repeat, Hopen, Hn.
        unfold post_line. rewrite !open_posts_cons, open_posts_nil. simpl. lia.
      * lia.
    + rewrite <- !app_assoc. reflexivity.
    + apply Forall_app. split; [apply no_tree_open_repeat|repeat constructor].
Qed.

Lemma for_each_in_step cur posts :
  forall s,
    in_step s ->
    exists s' ext,
      for_each posts (loop_body cur) s = (Ok tt, s') /\ in_step s' /\
      html s' = html s ++ ext /\ no_tree_open ext.
Proof.
  induction posts as [|p posts IH]; intros s Hs.
  - exists s, []. repeat split; try apply Hs; [now rewrite app_nil_r|constructor].
  - destruct (loop_body_in_step cur p s Hs) as (s1 & e1 & Hrun1 & Hs1 & Hh1 & He1).
    destruct (IH s1 Hs1) as (s2 & e2 & Hrun2 & Hs2 & Hh2 & He2).
    exists s2, (e1 ++ e2). split; [|split; [assumption|split]].
    + simpl. unfold bind. rewrite Hrun1. exact Hrun2.
    + rewrite Hh2, Hh1, app_assoc. reflexivity.
    + apply Forall_app. now split.
Qed.

Lemma in_step_initial : in_step initial.
Proof. repeat split; simpl; lia. Qed.

(** The output in terms of what the loop wrote and what it left pending. *)
Lemma make_tree_html_written cur posts :
  make_tree_html posts cur
  = Ok ((written posts cur ++ repeat DivClose (length (pending posts cur))) ++ [DivClose]) /\
  in_step (snd (for_each posts (loop_body cur) initial)) /\
  exists ext, written posts cur = TreeOpen :: ext /\ no_tree_open ext.
Proof.
  destruct (for_each_in_step cur posts initial in_step_initial)
    as (s & ext & Hrun & Hs & Hh & Hext).
  unfold written, pending, make_tree_html, make_tree_body, bind. rewrite Hrun. simpl.
  destruct Hs as (Hnb & Hopen & Hdep).
  rewrite Hdep, Nat2Z.id. split; [reflexivity|]. split; [now repeat split|].
  exists ext. now split.
Qed.

(** X1.  For every sequence of posts, well-formed or not, the output is
    the wrapper's open tag, a body, and the wrapper's close tag; in the
    body the tags of posts are properly nested: no close tag comes
    without a container of a post open, and at the end none is left open. *)
Theorem make_tree_properly_nested posts cur :
  exists body,
    make_tree_html posts cur = Ok (TreeOpen :: body ++ [DivClose]) /\
    no_tree_open body /\
    open_posts body = 0 /\
    (forall o1 o2, body = o1 ++ o2 -> 0 <= open_posts o1).
Proof.
  destruct (make_tree_html_written cur posts)
    as (Hout & (Hnb & Hopen & Hdep) & ext & Hw & Hext).
  fold (written posts cur) in Hnb, Hopen. fold (pending posts cur) in Hopen.
  exists (ext ++ repeat DivClose (length (pending posts cur))).
  rewrite Hw in *. split; [exact Hout|]. split; [|split].
  - apply Forall_app. split; [assumption|apply no_tree_open_repeat].
  - rewrite open_posts_cons in Hopen. simpl in Hopen.
    rewrite open_posts_app, open_posts_repeat. lia.
  - intros o1 o2 Hsplit. simpl in Hnb. destruct Hnb as [_ Hnb].
    assert (Hall : never_below 0 (o1 ++ o2)).
    { rewrite <- Hsplit. apply never_below_app. split; [assumption|].
      apply never_below_repeat. rewrite open_posts_cons in Hopen. simpl in *. lia. }
    apply never_below_prefix in Hall; lia.
Qed.

Lemma for_each_flat cur posts :
  forall s,
    levels s = [] ->
    Forall (fun p => right p - left p <= 1) posts ->
    for_each posts (loop_body cur) s
    = (Ok tt, {| html := html s ++ flat_pieces cur posts; levels := []; depth := depth s |}).
Proof.
  induction posts as [|p posts IH]; intros s Hl Hflat.
  - simpl. unfold ret. rewrite app_nil_r. destruct s; simpl in *. now subst.
  - apply Forall_cons in Hflat as [Hp Hflat].
    destruct (loop_body_split cur p s) as (keep & popped & Hsplit & _ & _ & Hrun).
    rewrite Hl in Hsplit. symmetry in Hsplit. apply app_eq_nil in Hsplit as [-> ->].
    unfold after_post, closed_by in Hrun. simpl in Hrun.
    replace (right p - left p >? 1) with false in Hrun
      by (symmetry; rewrite Z.gtb_ltb; apply Z.ltb_ge; lia).
    simpl. unfold bind. rewrite Hrun, IH by (simpl; auto). simpl.
    rewrite app_nil_r, <- !app_assoc. do 3 f_equal. lia.
Qed.

(** X2.  A flat sequence, where no post has [right - left > 1]: each post
    gives its line followed at once by its close tag, between the tags of
    the wrapper, and nothing is ever pushed on the stack. *)
Theorem make_tree_flat posts cur :
  Forall (fun p => right p - left p <= 1) posts ->
  make_tree_html posts cur = Ok (TreeOpen :: flat_pieces cur posts ++ [DivClose]) /\
  pending posts cur = [].
Proof.
  intros Hflat.
  pose proof (for_each_flat cur posts initial eq_refl Hflat) as Hrun.
  unfold make_tree_html, make_tree_body, pending, bind. rewrite Hrun. simpl.
  now rewrite app_nil_r.
Qed.

(** X2 at three posts side by side. *)
Lemma make_tree_flat_witness :
  make_tree_html [example_post 1 2 "a"; example_post 3 4 "b"; example_post 5 6 "c"] None
  = Ok [TreeOpen;
        PostLine false (example_post 1 2 "a"); DivClose;
        PostLine false (example_post 3 4 "b"); DivClose;
        PostLine false (example_post 5 6 "c"); DivClose;
        DivClose].
Proof.
  apply (make_tree_flat [example_post 1 2 "a"; example_post 3 4 "b"; example_post 5 6 "c"] None).
  repeat constructor; simpl; lia.
Defined.


(** X4.  What the loop writes for the first posts of a sequence does not
    depend on the posts that follow: the output for [posts ++ more] starts
    with all of the output for [posts] but its trailing close tags, one
    for each boundary pending and one for the wrapper. *)
Theorem make_tree_extends posts more cur :
  make_tree_html posts cur
  = Ok (written posts cur ++ repeat DivClose (S (length (pending posts cur)))) /\
  exists ext out,
    written (posts ++ more) cur = written posts cur ++ ext /\
    no_tree_open ext /\
    make_tree_html (posts ++ more) cur = Ok out /\
    out = written posts cur ++ ext
            ++ repeat DivClose (S (length (pending (posts ++ more) cur))).
Proof.
  destruct (make_tree_html_written cur posts) as (Hout & Hs & _).
  destruct (make_tree_html_written cur (posts ++ more)) as (Hout' & _ & _).
  assert (Hsnoc : forall (l : list fragment) n,
             (l ++ repeat DivClose n) ++ [DivClose] = l ++ repeat DivClose (S n)).
  { intros l n. rewrite <- app_assoc. f_equal. symmetry. apply repeat_cons. }
  rewrite Hsnoc in Hout, Hout'. split; [exact Hout|].
  destruct (for_each_in_step cur more _ Hs) as (s2 & ext & Hrun2 & _ & Hh & Hext).
  assert (Hw : written (posts ++ more) cur = written posts cur ++ ext).
  { unfold written. rewrite for_each_app.
    destruct (for_each posts (loop_body cur) initial) as [[[]|e] s1] eqn:Hrun1.
    - simpl in *. rewrite Hrun2. exact Hh.
    - destruct (for_each_in_step cur posts initial in_step_initial)
        as (? & ? & Hok & _). congruence. }
  exists ext. eexists. split; [exact Hw|]. split; [assumption|].
  split; [exact Hout'|]. rewrite Hw, <- app_assoc. reflexivity.
Qed.

End ForumMoreSpec.

(** ** More about the shared account store *)

Module AccountsSpec.
Import Py ProsodyAuth ProsodySpec Accounts.

(** *** The type rule *)

(** X5.  Whatever the instance, [save] leaves it with one of the four
    types that the docstring of the model lists, also when storing
    fails. *)
Theorem save_type_documented self db :
  In (type (fst (snd (save (self, db))))) ["string"; "number"; "json"; "boolean"].
Proof.
  rewrite save_sets_derived_type.
  pose proof (Model_save_stores
                (with_type self (derived_type (store self) (key self))) db) as Hm.
  assert (Hd : In (derived_type (store self) (key self))
                 ["string"; "number"; "json"; "boolean"]).
  { unfold derived_type, type_rules, first_rule.
    destruct (_ && _); [simpl; tauto|].
    destruct (_ && _); [simpl; tauto|].
    destruct (_ =? _)%string; [simpl; tauto|].
    destruct (_ =? _)%string; simpl; tauto. }
  destruct (Model_save _) as [[[]|e] [self' db']]; simpl.
  - destruct Hm as [_ [->|[i ->]]]; exact Hd.
  - destruct Hm as (_ & -> & _). exact Hd.
Qed.

(** The ordered rules, read as a table. *)
Lemma derived_type_table store_ key_ :
  (derived_type store_ key_ = "number" <->
   (store_ = "lastlog" /\ key_ = "timestamp") \/
   (store_ = "accounts" /\ key_ = "iterations")) /\
  (derived_type store_ key_ = "json" <-> store_ = "roster") /\
  (derived_type store_ key_ = "boolean" <->
   key_ = "persistence" /\ store_ <> "roster") /\
  (derived_type store_ key_ = "string" <->
   ~ (store_ = "lastlog" /\ key_ = "timestamp") /\
   ~ (store_ = "accounts" /\ key_ = "iterations") /\
   store_ <> "roster" /\ key_ <> "persistence").
Proof.
  unfold derived_type, type_rules, first_rule.
  destruct (String.eqb_spec store_ "lastlog"), (String.eqb_spec key_ "timestamp"),
    (String.eqb_spec store_ "accounts"), (String.eqb_spec key_ "iterations"),
    (String.eqb_spec store_ "roster"), (String.eqb_spec key_ "persistence");
    subst; simpl; try discriminate;
    repeat split; intros; try discriminate; try congruence; intuition congruence.
Qed.

(** X6.  Which rows [save] gives which type, whatever type they come
    with: once [save] has run the instance has the type [number] exactly
    for the two pairs (lastlog, timestamp) and (accounts, iterations);
    [json] exactly for the store roster; [boolean] exactly for the key
    persistence outside roster (in roster the earlier rule wins);
    [string] for all the rest.  When [save] stores the row, the instance
    it leaves is a row of the table, so this is the type stored. *)
Theorem save_type_cases self (db : table) :
  let saved := save (self, db) in
  let t := type (fst (snd saved)) in
  (t = "number" <->
   (store self = "lastlog" /\ key self = "timestamp") \/
   (store self = "accounts" /\ key self = "iterations")) /\
  (t = "json" <-> store self = "roster") /\
  (t = "boolean" <-> key self = "persistence" /\ store self <> "roster") /\
  (t = "string" <->
   ~ (store self = "lastlog" /\ key self = "timestamp") /\
   ~ (store self = "accounts" /\ key self = "iterations") /\
   store self <> "roster" /\ key self <> "persistence") /\
  (fst saved = Ok tt -> In (fst (snd saved)) (snd (snd saved))).
Proof.
  intros saved t.
  assert (Ht : t = derived_type (store self) (key self)) by apply save_type.
  rewrite Ht.
  destruct (derived_type_table (store self) (key self)) as (Hn & Hj & Hb & Hs).
  repeat (split; [assumption|]).
  subst saved. pose proof (save_stores self db) as Hst.
  destruct (save (self, db)) as [[[]|e] [self' db']]; simpl; [|discriminate].
  intros _. apply Hst.
Qed.

(** X6 for a login time that comes with the type [string], saved next to
    another user's row: it is stored as a [number]. *)
Lemma save_type_cases_witness :
  let saved :=
    save (example_row "alice" "lastlog" "timestamp" "string" "1000",
          [{| pk := Some 1; host := "example.org"; user := "bob"; store := "lastlog";
              key := "timestamp"; type := "number"; value := "999" |}]) in
  fst saved = Ok tt /\
  type (fst (snd saved)) = "number" /\
  In (fst (snd saved)) (snd (snd saved)).
Proof.
  intros saved.
  destruct (save_type_cases
              (example_row "alice" "lastlog" "timestamp" "string" "1000")
              [{| pk := Some 1; host := "example.org"; user := "bob"; store := "lastlog";
                  key := "timestamp"; type := "number"; value := "999" |}])
    as (Hn & _ & _ & _ & Hin).
  split; [reflexivity|]. split.
  - apply Hn. left. split; reflexivity.
  - apply Hin. reflexivity.
Defined.

(** *** Writing, then reading *)

Lemma save_fields self db self' db' :
  save (self, db) = (Ok tt, (self', db')) ->
  In self' db' /\
  host self' = host self /\ user self' = user self /\ store self' = store self /\
  key self' = key self /\ value self' = value self /\
  type self' = derived_type (store self) (key self).
Proof.
  intros Hsave. rewrite save_sets_derived_type in Hsave.
  pose proof (Model_save_stores
                (with_type self (derived_type (store self) (key self))) db) as Hm.
  rewrite Hsave in Hm. destruct Hm as [Hin [->|[i ->]]]; repeat split; assumption.
Qed.

(** X7.  A row stored by [save] is read back by [get_data_store] for its
    user, host and store: the mapping holds the text that was saved under
    the key of the row, a number row included, provided no other row that
    the query selects has the same key. *)
Theorem save_then_get_data_store self db self' db' :
  save (self, db) = (Ok tt, (self', db')) ->
  (forall r, In r db' -> r <> self' ->
             selected (user self) (host self) (store self) r = true ->
             key r <> key self) ->
  exists data,
    get_data_store (user self) (host self) (store self) db' = (Ok data, db') /\
    data !! key self = Some (value self).
Proof.
  intros Hsave Hothers.
  destruct (save_fields _ _ _ _ Hsave) as (Hin & Hh & Hu & Hs & Hk & Hv & _).
  eexists. split; [reflexivity|].
  unfold dict. rewrite dict_rows_lookup.
  set (rows := List.filter (selected (user self) (host self) (store self)) db').
  assert (Hsel : selected (user self) (host self) (store self) self' = true).
  { unfold selected. rewrite Hh, Hu, Hs, !String.eqb_refl. reflexivity. }
  assert (Hrow : In self' rows) by (apply filter_In; now split).
  destruct (last_with_key (key self) rows) as [r|] eqn:Hlast.
  - apply last_with_key_In in Hlast as [Hr Hrk].
    destruct (decide (r = self')) as [->|Hne]; [now rewrite Hv|].
    apply filter_In in Hr as [Hr Hrsel].
    now destruct (Hothers r Hr Hne Hrsel).
  - exfalso. now apply (last_with_key_None _ _ Hlast self' Hrow).
Qed.

(** X7 for a new accounts row on an empty table: the iteration count comes
    back as text. *)
Lemma save_then_get_data_store_witness :
  exists self' db' data,
    save (example_row "alice" "accounts" "iterations" "string" "4096", [])
    = (Ok tt, (self', db')) /\
    type self' = "number" /\
    get_data_store "alice" "example.org" "accounts" db' = (Ok data, db') /\
    data !! "iterations" = Some "4096".
Proof.
  pose (self := example_row "alice" "accounts" "iterations" "string" "4096").
  pose (self' := with_pk (with_type self "number") 1).
  destruct (save_then_get_data_store self [] self' [self'] eq_refl) as (data & Hrun & Hget).
  - intros r [<-|[]] Hne. congruence.
  - exists self', [self'], data. repeat split; assumption.
Defined.

(** *** Case *)









(** *** The lastlog accessor: loading and caching *)

Lemma user_eta (u : User) d :
  _lastlog_data u = Some d -> u = {| username := username u; _lastlog_data := Some d |}.
Proof. destruct u; simpl. now intros ->. Qed.

(** A call on an instance that holds a dictionary answers from it. *)
Lemma _get_lastlog_cached db k u d :
  _lastlog_data u = Some d -> _get_lastlog db k u = (Ok (d !! k), u).
Proof.
  intros Hd. unfold _get_lastlog, bind, get, ret. rewrite Hd. simpl. now rewrite Hd.
Qed.

(** The first call, when all rows convert: the dictionary it leaves. *)
Lemma _get_lastlog_loads db k u :
  _lastlog_data u = None ->
  Forall integer_if_number (objects_filter_lastlog db (username u)) ->
  exists d,
    _get_lastlog db k u = (Ok (d !! k), {| username := username u; _lastlog_data := Some d |}) /\
    forall k', d !! k' = match last_with_key k' (objects_filter_lastlog db (username u)) with
                         | Some r => lastlog_value r
                         | None => None
                         end.
Proof.
  intros Hnone Hall.
  destruct (load_rows (objects_filter_lastlog db (username u))
              {| username := username u; _lastlog_data := Some ∅ |} ∅ eq_refl Hall)
    as (d & Hrun & Hlookup).
  exists d. split.
  - unfold _get_lastlog, bind, get. rewrite Hnone.
    unfold set_lastlog_data, modify. simpl in *. rewrite Hrun. reflexivity.
  - intros k'. rewrite Hlookup. now destruct (last_with_key k' _).
Qed.

(** X9.  The first call of the accessor on an instance, when the number
    rows of the user's lastlog store hold integers: for every key it
    answers [None] when no row has the key, and otherwise what the last
    row with the key holds, as an integer when the row is a number row
    and as its text when it is not; it never fails for a missing key. *)
Theorem _get_lastlog_first_call db k u :
  _lastlog_data u = None ->
  Forall integer_if_number (objects_filter_lastlog db (username u)) ->
  exists x u',
    _get_lastlog db k u = (Ok x, u') /\
    match last_with_key k (objects_filter_lastlog db (username u)) with
    | None => x = None
    | Some r =>
        if (type r =? "number")%string
        then exists n, int (value r) = Ok n /\ x = Some (PyInt n)
        else x = Some (PyStr (value r))
    end.
Proof.
  intros Hnone Hall.
  destruct (_get_lastlog_loads db k u Hnone Hall) as (d & Hrun & Hlookup).
  eexists. eexists. split; [exact Hrun|].
  rewrite Hlookup.
  destruct (last_with_key k _) as [r|] eqn:Hlast; [|reflexivity].
  apply last_with_key_In in Hlast as [Hr _].
  rewrite List.Forall_forall in Hall. specialize (Hall r Hr).
  unfold lastlog_value.
  destruct (String.eqb_spec (type r) "number") as [Ht|_]; [|reflexivity].
  destruct (Hall Ht) as [n Hn]. exists n. now rewrite Hn.
Qed.

(** X9 for a store with an address and a time stamp. *)
Lemma _get_lastlog_first_call_witness :
  exists u',
    _get_lastlog
      [example_row "alice" "lastlog" "ip" "string" "192.0.2.7";
       example_row "alice" "lastlog" "timestamp" "number" "1447000000"]
      "timestamp" {| username := "alice"; _lastlog_data := None |}
    = (Ok (Some (PyInt 1447000000)), u').
Proof.
  destruct (_get_lastlog_first_call
              [example_row "alice" "lastlog" "ip" "string" "192.0.2.7";
               example_row "alice" "lastlog" "timestamp" "number" "1447000000"]
              "timestamp" {| username := "alice"; _lastlog_data := None |})
    as (x & u' & Hrun & Hx).
  - reflexivity.
  - set (rows := objects_filter_lastlog _ _). vm_compute in rows. subst rows.
    repeat apply Forall_cons_2; try apply Forall_nil_2;
      intros Ht; first [discriminate Ht | eexists; reflexivity].
  - exists u'. rewrite Hrun. f_equal. f_equal.
    vm_compute in Hx. destruct Hx as (n & Hn & ->). now injection Hn as <-.
Defined.

Lemma load_keeps_dictionary rows :
  forall u d0 res u2,
    _lastlog_data u = Some d0 ->
    for_each rows lastlog_item u = (res, u2) ->
    is_Some (_lastlog_data u2).
Proof.
  induction rows as [|r rows IH]; intros u d0 res u2 Hd Hrun.
  - injection Hrun as <- <-. rewrite Hd. now eexists.
  - simpl in Hrun. unfold bind in Hrun. rewrite (lastlog_item_run r u d0 Hd) in Hrun.
    destruct (lastlog_value r) as [v|].
    + eapply IH; [|exact Hrun]. reflexivity.
    + injection Hrun as <- <-. rewrite Hd. now eexists.
Qed.

(** X10.  The table is read once per instance.  When a call of the
    accessor has returned, the instance holds a dictionary, and every
    later call, for any key and whatever the table has become, answers
    from that dictionary and leaves the instance as it is; the same key
    gets the same answer again. *)
Theorem _get_lastlog_reads_once db k u x u1 :
  _get_lastlog db k u = (Ok x, u1) ->
  exists d,
    _lastlog_data u1 = Some d /\ x = d !! k /\
    forall db2 k2, _get_lastlog db2 k2 u1 = (Ok (d !! k2), u1).
Proof.
  intros Hrun.
  assert (Hd : exists d, _lastlog_data u1 = Some d /\ x = d !! k).
  { unfold _get_lastlog, bind, get in Hrun.
    destruct (_lastlog_data u) as [d|] eqn:Hu.
    - unfold ret in Hrun. rewrite Hu in Hrun. injection Hrun as <- <-. eauto.
    - unfold set_lastlog_data, modify in Hrun.
      destruct (for_each _ _ _) as [[[]|e] u2] eqn:Hload; [|discriminate].
      assert (Hsome : is_Some (_lastlog_data u2))
        by (eapply load_keeps_dictionary; [|exact Hload]; reflexivity).
      destruct Hsome as [d Hu2].
      rewrite Hu2 in Hrun. injection Hrun as <- <-. eauto. }
  destruct Hd as (d & Hd & Hx). exists d. split; [assumption|]. split; [assumption|].
  intros db2 k2. now apply _get_lastlog_cached.
Qed.

(** X10 after a first call on an empty table: a row stored later is not
    seen by the same instance. *)
Lemma _get_lastlog_reads_once_witness :
  exists u1,
    _get_lastlog [] "event" {| username := "alice"; _lastlog_data := None |} = (Ok None, u1) /\
    _get_lastlog [example_row "alice" "lastlog" "event" "string" "login"] "event" u1
    = (Ok None, u1).
Proof.
  destruct (_get_lastlog_reads_once [] "event"
              {| username := "alice"; _lastlog_data := None |} None
              {| username := "alice"; _lastlog_data := Some ∅ |} eq_refl)
    as (d & Hd & _ & Hlater).
  exists {| username := "alice"; _lastlog_data := Some ∅ |}.
  split; [reflexivity|].
  rewrite Hlater. simpl in Hd. injection Hd as <-. reflexivity.
Defined.

Lemma lastlog_value_integer r v : lastlog_value r = Some v -> integer_if_number r.
Proof.
  unfold lastlog_value, integer_if_number. intros Hv Ht. rewrite Ht in Hv. simpl in Hv.
  destruct (int (value r)) as [n|e]; [now exists n|discriminate].
Qed.

(** Loading stops at the first row that does not convert, and keeps what
    the rows before it gave. *)
Lemma load_rows_stops rows :
  forall u d0 e u1,
    _lastlog_data u = Some d0 ->
    for_each rows lastlog_item u = (Raise e, u1) ->
    e = ValueError /\
    exists good bad rest d,
      rows = good ++ bad :: rest /\
      Forall integer_if_number good /\
      lastlog_value bad = None /\
      u1 = {| username := username u; _lastlog_data := Some d |} /\
      forall k, d !! k = match last_with_key k good with
                         | Some r => lastlog_value r
                         | None => d0 !! k
                         end.
Proof.
  induction rows as [|r rows IH]; intros u d0 e u1 Hd Hrun; [discriminate|].
  simpl in Hrun. unfold bind in Hrun. rewrite (lastlog_item_run r u d0 Hd) in Hrun.
  destruct (lastlog_value r) as [v|] eqn:Hv.
  - destruct (IH {| username := username u; _lastlog_data := Some (<[key r := v]> d0) |}
                (<[key r := v]> d0) e u1 eq_refl Hrun)
      as (-> & good & bad & rest & d & -> & Hgood & Hbad & -> & Hlookup).
    split; [reflexivity|].
    exists (r :: good), bad, rest, d. repeat split; try assumption.
    + constructor; [now apply (lastlog_value_integer r v)|assumption].
    + intros k. rewrite Hlookup, last_with_key_cons.
      destruct (last_with_key k good); [reflexivity|].
      destruct (String.eqb_spec (key r) k) as [<-|Hne].
      * now rewrite lookup_insert_eq.
      * now apply lookup_insert_ne.
  - injection Hrun as <- <-. split; [reflexivity|].
    exists [], r, rows, d0. repeat split; try assumption; [constructor|now apply user_eta].
Qed.

(** X11.  A failed load is not tried again.  The accessor can only fail
    with [ValueError], on the first call of an instance, at the first
    number row of the user's lastlog store that holds no integer; the
    instance then keeps the dictionary of the rows before that row, and
    every later call answers from it without failing and without reading
    the table. *)
Theorem _get_lastlog_failure_sticks db k u e u1 :
  _get_lastlog db k u = (Raise e, u1) ->
  e = ValueError /\ _lastlog_data u = None /\
  exists good bad rest d,
    objects_filter_lastlog db (username u) = good ++ bad :: rest /\
    Forall integer_if_number good /\
    type bad = "number" /\ int (value bad) = Raise ValueError /\
    _lastlog_data u1 = Some d /\
    (forall k', d !! k' = match last_with_key k' good with
                          | Some r => lastlog_value r
                          | None => None
                          end) /\
    forall db2 k2, _get_lastlog db2 k2 u1 = (Ok (d !! k2), u1).
Proof.
  intros Hrun. unfold _get_lastlog, bind, get in Hrun.
  destruct (_lastlog_data u) as [d0|] eqn:Hu.
  { unfold ret in Hrun. rewrite Hu in Hrun. discriminate. }
  unfold set_lastlog_data, modify in Hrun.
  destruct (for_each _ _ _) as [[[]|e'] u2] eqn:Hload.
  { assert (Hsome : is_Some (_lastlog_data u2))
      by (eapply load_keeps_dictionary; [|exact Hload]; reflexivity).
    destruct Hsome as [d2 Hd2]. rewrite Hd2 in Hrun. discriminate. }
  injection Hrun as <- <-.
  destruct (load_rows_stops _ {| username := username u; _lastlog_data := Some ∅ |}
              ∅ _ _ eq_refl Hload)
    as (-> & good & bad & rest & d & Hrows & Hgood & Hbad & -> & Hlookup).
  split; [reflexivity|]. split; [reflexivity|].
  exists good, bad, rest, d. split; [exact Hrows|]. split; [assumption|].
  assert (Hb : type bad = "number" /\ int (value bad) = Raise ValueError).
  { unfold lastlog_value in Hbad.
    destruct (String.eqb_spec (type bad) "number") as [Ht|_]; [|discriminate].
    split; [assumption|].
    destruct (int (value bad)) as [n|e] eqn:Hint; [discriminate|].
    now rewrite (int_raises _ _ Hint). }
  destruct Hb as [Hbt Hbv]. do 2 (split; [assumption|]).
  split; [reflexivity|]. split.
  - intros k'. rewrite Hlookup. now destruct (last_with_key k' good).
  - intros db2 k2. now apply _get_lastlog_cached.
Qed.

(** X11 for a store whose time stamp is not an integer: the first call
    fails, the second answers from the rows loaded before the failure. *)
Lemma _get_lastlog_failure_sticks_witness :
  let db := [example_row "alice" "lastlog" "event" "string" "login";
             example_row "alice" "lastlog" "timestamp" "number" "1447.5";
             example_row "alice" "lastlog" "ip" "string" "192.0.2.7"] in
  exists u1,
    _get_lastlog db "ip" {| username := "alice"; _lastlog_data := None |}
    = (Raise ValueError, u1) /\
    _get_lastlog db "event" u1 = (Ok (Some (PyStr "login")), u1) /\
    _get_lastlog db "ip" u1 = (Ok None, u1).
Proof.
  intros db.
  destruct (_get_lastlog db "ip" {| username := "alice"; _lastlog_data := None |})
    as [[x|e] u1] eqn:Hrun; [vm_compute in Hrun; discriminate|].
  destruct (_get_lastlog_failure_sticks db "ip" _ e u1 Hrun)
    as (-> & _ & good & bad & rest & d & _ & _ & _ & _ & Hd & _ & Hlater).
  exists u1. split; [reflexivity|].
  rewrite !Hlater.
  vm_compute in Hrun. injection Hrun as <-. simpl in Hd. injection Hd as <-.
  split; reflexivity.
Defined.

(** *** The two read paths side by side *)




(** *** Presence *)

(** X13.  A user without lastlog rows, on an instance not loaded yet: the
    user is not online and has no last address, both without failing,
    but asking for the last login fails with [TypeError], since there is
    no time stamp to convert. *)
Theorem presence_without_rows {dt : Datetime} db u :
  _lastlog_data u = None ->
  objects_filter_lastlog db (username u) = [] ->
  let u' := {| username := username u; _lastlog_data := Some ∅ |} in
  xmpp_online db u = (Ok false, u') /\
  xmpp_last_ip db u = (Ok None, u') /\
  xmpp_last_login db u = (Raise TypeError, u').
Proof.
  intros Hnone Hrows u'.
  assert (Hget : forall k, _get_lastlog db k u = (Ok None, u')).
  { intros k. unfold _get_lastlog, bind, get. rewrite Hnone, Hrows. reflexivity. }
  unfold xmpp_online, xmpp_last_ip, xmpp_last_login, bind. rewrite !Hget.
  repeat split.
Qed.

(** X13 on an empty table. *)
Lemma presence_without_rows_witness :
  xmpp_last_login (dt := example_datetime) []
    {| username := "alice"; _lastlog_data := None |}
  = (Raise TypeError, {| username := "alice"; _lastlog_data := Some ∅ |}).
Proof.
  apply (presence_without_rows (dt := example_datetime) []
           {| username := "alice"; _lastlog_data := None |}); reflexivity.
Defined.

(** What the accessor gives for the key of a row just saved in the lastlog
    store of the user, the other rows of that store having other keys and
    converting. *)
Lemma saved_row_read self db self' db' u v :
  save (self, db) = (Ok tt, (self', db')) ->
  store self = "lastlog" ->
  iexact (user self) (username u) = true ->
  _lastlog_data u = None ->
  (forall r, In r (objects_filter_lastlog db' (username u)) -> r <> self' ->
             key r <> key self /\ integer_if_number r) ->
  lastlog_value self' = Some v ->
  exists u', _get_lastlog db' (key self) u = (Ok (Some v), u').
Proof.
  intros Hsave Hstore Huser Hnone Hothers Hv.
  destruct (save_fields _ _ _ _ Hsave) as (Hin & _ & Hu & Hs & Hk & _ & _).
  set (rows := objects_filter_lastlog db' (username u)) in *.
  assert (Hrow : In self' rows).
  { apply filter_In. split; [assumption|]. rewrite Hu, Huser, Hs, Hstore. reflexivity. }
  assert (Hall : Forall integer_if_number rows).
  { apply List.Forall_forall. intros r Hr.
    destruct (decide (r = self')) as [->|Hne]; [|now apply Hothers].
    now apply (lastlog_value_integer self' v). }
  destruct (_get_lastlog_loads db' (key self) u Hnone Hall) as (d & Hrun & Hlookup).
  eexists. rewrite Hrun, Hlookup. fold rows.
  destruct (last_with_key (key self) rows) as [r|] eqn:Hlast.
  - apply last_with_key_In in Hlast as [Hr Hrk].
    destruct (decide (r = self')) as [->|Hne]; [now rewrite Hv|].
    now destruct (Hothers r Hr Hne).
  - exfalso. apply (last_with_key_None _ _ Hlast self' Hrow). exact Hk.
Qed.

(** X14.  Once [save] has stored a lastlog time stamp whose text spells
    the integer [n], the last login of the user is
    [utcfromtimestamp(n)], on an instance not loaded yet and with the
    other lastlog rows of the user out of the way. *)
Theorem xmpp_last_login_after_save {dt : Datetime} self db self' db' u n :
  save (self, db) = (Ok tt, (self', db')) ->
  store self = "lastlog" ->
  key self = "timestamp" ->
  int (value self) = Ok n ->
  iexact (user self) (username u) = true ->
  _lastlog_data u = None ->
  (forall r, In r (objects_filter_lastlog db' (username u)) -> r <> self' ->
             key r <> "timestamp" /\ integer_if_number r) ->
  exists u', xmpp_last_login db' u = (utcfromtimestamp_int n, u').
Proof.
  intros Hsave Hstore Hkey Hint Huser Hnone Hothers.
  destruct (save_fields _ _ _ _ Hsave) as (_ & _ & _ & _ & _ & Hv & Ht).
  rewrite Hstore, Hkey in Ht. change (derived_type "lastlog" "timestamp") with "number" in Ht.
  assert (Hval : lastlog_value self' = Some (PyInt n)).
  { unfold lastlog_value. rewrite Ht, Hv, Hint. reflexivity. }
  rewrite <- Hkey in Hothers.
  destruct (saved_row_read self db self' db' u _ Hsave Hstore Huser Hnone Hothers Hval)
    as [u' Hrun].
  exists u'. unfold xmpp_last_login, bind. rewrite <- Hkey, Hrun. reflexivity.
Qed.

(** X14 on an empty table. *)
Lemma xmpp_last_login_after_save_witness :
  exists self' db' u',
    save (example_row "alice" "lastlog" "timestamp" "string" " 1447000000", [])
    = (Ok tt, (self', db')) /\
    xmpp_last_login (dt := example_datetime) db'
      {| username := "alice"; _lastlog_data := None |} = (Ok 1447000000, u').
Proof.
  pose (self := example_row "alice" "lastlog" "timestamp" "string" " 1447000000").
  pose (self' := with_pk (with_type self "number") 1).
  destruct (xmpp_last_login_after_save (dt := example_datetime) self [] self' [self']
              {| username := "alice"; _lastlog_data := None |} 1447000000)
    as (u' & Hrun); try reflexivity.
  - intros r [<-|[]] Hne. congruence.
  - exists self', [self'], u'. split; [reflexivity|exact Hrun].
Defined.

(** X15.  Once [save] has stored the lastlog event of a user, the user is
    online exactly when the text saved is ["login"]: [save] gives the row
    the type [string], so the accessor hands the text back as it is. *)
Theorem xmpp_online_after_save self db self' db' u :
  save (self, db) = (Ok tt, (self', db')) ->
  store self = "lastlog" ->
  key self = "event" ->
  iexact (user self) (username u) = true ->
  _lastlog_data u = None ->
  (forall r, In r (objects_filter_lastlog db' (username u)) -> r <> self' ->
             key r <> "event" /\ integer_if_number r) ->
  type self' = "string" /\
  exists u', xmpp_online db' u = (Ok (value self =? "login")%string, u').
Proof.
  intros Hsave Hstore Hkey Huser Hnone Hothers.
  destruct (save_fields _ _ _ _ Hsave) as (_ & _ & _ & _ & _ & Hv & Ht).
  rewrite Hstore, Hkey in Ht. change (derived_type "lastlog" "event") with "string" in Ht.
  split; [exact Ht|].
  assert (Hval : lastlog_value self' = Some (PyStr (value self))).
  { unfold lastlog_value. rewrite Ht, Hv. reflexivity. }
  rewrite <- Hkey in Hothers.
  destruct (saved_row_read self db self' db' u _ Hsave Hstore Huser Hnone Hothers Hval)
    as [u' Hrun].
  exists u'. unfold xmpp_online, bind. rewrite <- Hkey, Hrun. simpl.
  now destruct (value self =? "login")%string.
Qed.

(** X15 on an empty table, for a login. *)
Lemma xmpp_online_after_save_witness :
  exists self' db' u',
    save (example_row "alice" "lastlog" "event" "number" "login", [])
    = (Ok tt, (self', db')) /\
    xmpp_online db' {| username := "alice"; _lastlog_data := None |} = (Ok true, u').
Proof.
  pose (self := example_row "alice" "lastlog" "event" "number" "login").
  pose (self' := with_pk (with_type self "string") 1).
  destruct (xmpp_online_after_save self [] self' [self']
              {| username := "alice"; _lastlog_data := None |})
    as (_ & u' & Hrun); try reflexivity.
  - intros r [<-|[]] Hne. congruence.
  - exists self', [self'], u'. split; [reflexivity|exact Hrun].
Defined.

(** *** The full name *)

Lemma str_lstrip_first s c :
  first_char (str_lstrip s) = Some c -> isspace c = false.
Proof.
  induction s as [|a s IH]; simpl; [discriminate|].
  destruct (isspace a) eqn:Ha; [exact IH|].
  simpl. intros [= <-]. exact Ha.
Qed.

Lemma str_rstrip_cons a s :
  isspace a = false -> str_rstrip (String a s) = String a (str_rstrip s).
Proof. intros Ha. simpl. rewrite Ha. now destruct (str_rstrip s). Qed.

Lemma str_rstrip_first s c :
  (forall a, first_char s = Some a -> isspace a = false) ->
  first_char (str_rstrip s) = Some c -> isspace c = false.
Proof.
  destruct s as [|a s]; [discriminate|]. intros Hs.
  rewrite str_rstrip_cons by now apply Hs.
  simpl. intros [= <-]. now apply Hs.
Qed.

Lemma str_rstrip_last s c :
  last_char (str_rstrip s) = Some c -> isspace c = false.
Proof.
  induction s as [|a s IH]; simpl; [discriminate|].
  destruct (str_rstrip s) as [|b r] eqn:Hr.
  - destruct (isspace a) eqn:Ha; simpl; [discriminate|]. now intros [= <-].
  - exact IH.
Qed.

(** X16.  The full name of a user never starts and never ends with white
    space, whatever the two names hold. *)
Theorem full_name_stripped self c :
  (first_char (full_name self) = Some c -> isspace c = false) /\
  (last_char (full_name self) = Some c -> isspace c = false).
Proof.
  unfold full_name, str_strip. split.
  - apply str_rstrip_first. intros a. apply str_lstrip_first.
  - apply str_rstrip_last.
Qed.

Lemma str_rstrip_space s : str_rstrip (s +:+ " ") = str_rstrip s.
Proof.
  induction s as [|a s IH]; [reflexivity|].
  rewrite ForumSpec.append_cons. simpl. now rewrite IH.
Qed.

Lemma str_lstrip_space s :
  str_lstrip (s +:+ " ") = str_lstrip s +:+ " " \/
  (str_lstrip (s +:+ " ") = "" /\ str_lstrip s = "").
Proof.
  induction s as [|a s IH]; [right; split; reflexivity|].
  rewrite ForumSpec.append_cons. simpl. destruct (isspace a); [exact IH|].
  left. reflexivity.
Qed.

Lemma str_strip_space s : str_strip (s +:+ " ") = str_strip s.
Proof.
  unfold str_strip. destruct (str_lstrip_space s) as [->|[-> ->]]; [|reflexivity].
  apply str_rstrip_space.
Qed.

(** X17.  With an empty last name the full name is the first name alone,
    stripped, and with an empty first name the last name alone: the blank
    that joins them does not show. *)
Theorem full_name_one_name self :
  (last_name self = Some "" ->
   full_name self = str_strip (format_field (first_name self))) /\
  (first_name self = Some "" ->
   full_name self = str_strip (format_field (last_name self))).
Proof.
  unfold full_name. split; intros ->; simpl.
  - apply str_strip_space.
  - reflexivity.
Qed.

(** X17 for a user known by one name. *)
Lemma full_name_one_name_witness :
  full_name {| first_name := Some "Cher"; last_name := Some "" |} = "Cher".
Proof.
  rewrite (proj1 (full_name_one_name {| first_name := Some "Cher"; last_name := Some "" |}));
    reflexivity.
Defined.

Lemma str_rstrip_keep y t :
  t <> "" -> str_rstrip t = t -> str_rstrip (y +:+ t) = y +:+ t.
Proof.
  intros Hne Ht. induction y as [|a y IH]; [exact Ht|].
  rewrite ForumSpec.append_cons. simpl. rewrite IH.
  destruct (y +:+ t) eqn:Hy; [|reflexivity].
  destruct y as [|b y]; [now change ("" +:+ t) with t in Hy|].
  rewrite ForumSpec.append_cons in Hy. discriminate.
Qed.

Lemma str_lstrip_suffix s :
  exists front, str_lstrip (s +:+ " None") = front +:+ "None".
Proof.
  induction s as [|a s IH]; [now exists ""|].
  rewrite ForumSpec.append_cons. simpl. destruct (isspace a); [exact IH|].
  exists (String a s +:+ " "). now rewrite ForumSpec.append_assoc.
Qed.

(** X18.  A name that is missing (the column is nullable) shows as the
    text [None]: the full name starts with it when the first name is
    missing and ends with it when the last name is; with both missing it
    is ["None None"]. *)
Theorem full_name_missing self :
  (first_name self = None -> exists rest, full_name self = "None" +:+ rest) /\
  (last_name self = None -> exists front, full_name self = front +:+ "None") /\
  (first_name self = None -> last_name self = None -> full_name self = "None None").
Proof.
  unfold full_name, str_strip. split; [|split].
  - intros ->. change (format_field None) with "None".
    exists (str_rstrip (" " +:+ format_field (last_name self))).
    change ("None" +:+ " " +:+ format_field (last_name self))
      with (String "N" (String "o" (String "n" (String "e"
              (" " +:+ format_field (last_name self)))))).
    change (str_lstrip (String "N" ?s)) with (String "N" s).
    rewrite !str_rstrip_cons by reflexivity. reflexivity.
  - intros ->. change (format_field None) with "None".
    change (" " +:+ "None") with " None".
    destruct (str_lstrip_suffix (format_field (first_name self))) as [front ->].
    exists front. now apply str_rstrip_keep.
  - intros -> ->. reflexivity.
Qed.

(** X18 for a user whose names were never set. *)
Lemma full_name_missing_witness :
  full_name {| first_name := None; last_name := None |} = "None None".
Proof.
  apply (full_name_missing {| first_name := None; last_name := None |}); reflexivity.
Defined.

End AccountsSpec.

(** ** The login audit *)

Module AuditsSpec.
Import Audits.

Lemma latest_found rows :
  match latest rows with
  | DoesNotExist => rows = []
  | Found a => In a rows /\ forall b, In b rows -> login_date b <= login_date a
  end.
Proof.
  induction rows as [|a rows IH]; [reflexivity|].
  simpl. destruct (latest rows) as [b|].
  - destruct IH as [Hb Hmax].
    destruct (Z.ltb_spec (login_date a) (login_date b)).
    + split; [now right|]. intros c [<-|Hc]; [lia|now apply Hmax].
    + split; [now left|]. intros c [<-|Hc]; [lia|]. specialize (Hmax c Hc). lia.
  - subst rows. split; [now left|]. intros c [<-|[]]. lia.
Qed.

(** X19.  The last login that a user is shown is the latest date of the
    whole audit table, whichever users its rows belong to: it is [None]
    only for an empty table, and otherwise a date of the table that no
    row exceeds, so a later login of somebody else is what this user
    sees. *)
Theorem last_login_latest_of_all self audits :
  (last_login self audits = None <-> audits = []) /\
  (forall d, last_login self audits = Some d ->
             (exists a, In a audits /\ login_date a = d) /\
             forall b, In b audits -> login_date b <= d) /\
  (forall b, In b audits ->
             exists d, last_login self audits = Some d /\ login_date b <= d).
Proof.
  unfold last_login. pose proof (latest_found audits) as Hl.
  destruct (latest audits) as [a|].
  - destruct Hl as [Ha Hmax]. split; [|split].
    + split; [discriminate|]. intros ->. contradiction.
    + intros d [= <-]. split; [now exists a|exact Hmax].
    + intros b Hb. exists (login_date a). split; [reflexivity|now apply Hmax].
  - subst audits. split; [|split].
    + split; reflexivity.
    + discriminate.
    + intros b [].
Qed.

(** X19 for a user who logged in before somebody else did. *)
Lemma last_login_latest_of_all_witness :
  last_login 1
    [{| user := 1; login_date := 1447000000; ip := "192.0.2.7" |};
     {| user := 2; login_date := 1447003600; ip := "198.51.100.9" |}]
  = Some 1447003600.
Proof.
  destruct (last_login_latest_of_all 1
              [{| user := 1; login_date := 1447000000; ip := "192.0.2.7" |};
               {| user := 2; login_date := 1447003600; ip := "198.51.100.9" |}])
    as (_ & Hsome & Hall).
  destruct (Hall {| user := 2; login_date := 1447003600; ip := "198.51.100.9" |})
    as (d & Hd & Hle); [right; now left|].
  rewrite Hd. f_equal.
  destruct (Hsome d Hd) as [(a & [<-|[<-|[]]] & Ha) _]; simpl in *; lia.
Defined.

End AuditsSpec.

(** ** The tree renderer on well-formed input: pieces and text *)

Module ForumTextSpec.
Import Py Forum ForumMore ForumSpec ForumMoreSpec.

Section Text.
Context {site : Site}.

Lemma render_app a b : render (a ++ b) = render a +:+ render b.
Proof.
  induction a as [|f a IH]; [reflexivity|].
  change (render ((f :: a) ++ b)) with (render_fragment f +:+ render (a ++ b)).
  change (render (f :: a)) with (render_fragment f +:+ render a).
  now rewrite IH, append_assoc.
Qed.

(** Every line starts with the tag that opens the container of its post. *)
Lemma format_line_opens current p : opens_with_div (format_line current p).
Proof.
  unfold opens_with_div, format_line. destruct current.
  - eexists. reflexivity.
  - eexists. change "<div><a href=" with ("<div>" +:+ "<a href=").
    rewrite append_assoc. reflexivity.
Qed.

Lemma no_tree_open_filter fs : no_tree_open fs -> List.filter is_tree_open fs = [].
Proof.
  induction 1 as [|f fs Hf _ IH]; simpl; [reflexivity|]. now rewrite Hf.
Qed.

Lemma plain_pieces cur (qs : list Post) :
  Forall (plain_line cur) qs ->
  occurrences_in_pieces "<div" (map (post_line cur) qs) = length qs /\
  occurrences_in_pieces "</div>" (map (post_line cur) qs) = 0%nat.
Proof.
  intros Hplain. rewrite !pieces_of_lines. now apply line_occurrences_plain.
Qed.

(** Tags in the text of the pieces before a line, when the lines are plain. *)
Lemma plain_prefix_tags cur posts out o1 c p o2 :
  make_tree_html posts cur = Ok out ->
  Forall (plain_line cur) posts ->
  out = o1 ++ PostLine c p :: o2 ->
  occurrences "<div" (render o1) = S (length (lines o1)) /\
  occurrences "</div>" (render o1) = closes o1.
Proof.
  intros Hout Hplain Hsplit.
  destruct (make_tree_html_written cur posts) as (Hshape & _ & ext & Hw & Hext).
  rewrite Hout, Hw in Hshape. injection Hshape as Hshape.
  destruct (make_tree_html_counts cur posts) as (out' & Hout' & Hlines & _).
  rewrite Hout in Hout'. injection Hout' as <-.
  (* the pieces before the line start with the wrapper's open tag, the only one *)
  destruct o1 as [|f o1']; [rewrite Hsplit in Hshape; discriminate|].
  rewrite Hsplit in Hshape. simpl in Hshape. injection Hshape as -> Hbody.
  assert (Hno : no_tree_open o1').
  { assert (Hall : no_tree_open (o1' ++ PostLine c p :: o2)).
    { rewrite Hbody. apply Forall_app. split.
      - apply Forall_app. split; [assumption|apply no_tree_open_repeat].
      - repeat constructor. }
    now apply Forall_app in Hall as [Hall _]. }
  (* the lines before the line are lines of the posts, hence plain *)
  assert (Hpre : exists qs, lines (TreeOpen :: o1') = map (post_line cur) qs /\
                            Forall (plain_line cur) qs).
  { rewrite Hsplit, lines_app in Hlines.
    exists (take (length (lines (TreeOpen :: o1'))) posts). split.
    - rewrite <- firstn_map, <- Hlines. now rewrite take_app_length.
    - now apply Forall_take. }
  destruct Hpre as (qs & Hqs & Hqplain).
  destruct (plain_pieces cur qs Hqplain) as [Hqo Hqc].
  pose proof (occurrences_render_open (TreeOpen :: o1')) as Eo.
  pose proof (occurrences_render_close (TreeOpen :: o1')) as Ec.
  pose proof (pieces_by_kind "<div" (TreeOpen :: o1')) as Ko.
  pose proof (pieces_by_kind "</div>" (TreeOpen :: o1')) as Kc.
  change (occurrences "<div" (render_fragment TreeOpen)) with 1%nat in Ko.
  change (occurrences "<div" (render_fragment DivClose)) with 0%nat in Ko.
  change (occurrences "</div>" (render_fragment TreeOpen)) with 0%nat in Kc.
  change (occurrences "</div>" (render_fragment DivClose)) with 1%nat in Kc.
  assert (Htree : length (List.filter is_tree_open (TreeOpen :: o1')) = 1%nat)
    by (simpl; now rewrite (no_tree_open_filter o1' Hno)).
  assert (Hlen : length (lines (TreeOpen :: o1')) = length qs)
    by now rewrite Hqs, length_map.
  rewrite Htree in Ko, Kc. rewrite Hqs in Ko, Kc. rewrite Hlen.
  split; [rewrite Eo, Ko|rewrite Ec, Kc]; lia.
Qed.

End Text.

(** C1, as stated, fails on the text that is returned: the subject of a
    post is copied into its line as it is, so the single post [(1,2)] with
    the subject ["</div>"], a well-formed sequence, gives a text with two
    close tags for one post besides the wrapper's. *)
Lemma make_tree_text_tags_differ :
  ~ (forall (site : Site) posts cur text,
       well_formed posts ->
       make_tree posts cur = Ok text ->
       occurrences "<div" text = S (length posts) /\
       occurrences "</div>" text = S (length posts)).
Proof.
  intros Hclaim.
  assert (Hwf : well_formed [example_post 1 2 "</div>"]).
  { unfold well_formed. split; [repeat constructor|split; repeat constructor]. }
  destruct (Hclaim example_site [example_post 1 2 "</div>"] None _ Hwf eq_refl)
    as [_ Hclose].
  vm_compute in Hclose. discriminate.
Qed.

(** C1, amended.  For a well-formed nested-set sequence [make_tree]
    writes, between the tags of the wrapper, the line of each post once
    and in order, each line starting with the tag ["<div>"] that opens
    the container of its post, and one close tag ["</div>"] per post;
    where the line of a post starts, the containers of posts written and
    not yet closed are as many as the post has ancestors, and no close tag
    but the last comes with no container of a post open.  The text
    returned is these pieces one after the other.  When no line holds a
    [div] tag besides the one that opens it, the same holds of the text:
    it has one open and one close tag per post besides the wrapper's, and
    before the line of a post the open tags exceed the close tags by the
    wrapper's and one for each ancestor of the post. *)
Theorem make_tree_well_formed {site : Site} posts cur :
  well_formed posts ->
  exists out text,
    make_tree_html posts cur = Ok out /\
    make_tree posts cur = Ok text /\
    lines out = map (post_line cur) posts /\
    opens out = S (length posts) /\
    closes out = S (length posts) /\
    (forall o1 c p o2,
        out = o1 ++ PostLine c p :: o2 ->
        open_posts o1 = Z.of_nat (length (ancestors posts p))) /\
    (forall o1 o2, out = o1 ++ o2 -> o2 <> [] -> 0 <= open_posts o1) /\
    (exists body, out = TreeOpen :: body ++ [DivClose] /\ no_tree_open body) /\
    (forall c p, opens_with_div (render_fragment (PostLine c p))) /\
    render_fragment DivClose = "</div>" /\
    (forall o1 o2, out = o1 ++ o2 -> text = render o1 +:+ render o2) /\
    (Forall (plain_line cur) posts ->
     occurrences "<div" text = S (length posts) /\
     occurrences "</div>" text = S (length posts) /\
     forall o1 c p o2,
       out = o1 ++ PostLine c p :: o2 ->
       Z.of_nat (occurrences "<div" (render o1))
       - Z.of_nat (occurrences "</div>" (render o1))
       = 1 + Z.of_nat (length (ancestors posts p))).
Proof.
  intros Hwf.
  destruct (make_tree_well_formed_pieces posts cur Hwf)
    as (out & Hout & Htext & Hlines & Hopens & Hcloses & Hdepth & Hnb).
  exists out, (render out). split; [exact Hout|]. split; [exact Htext|].
  do 5 (split; [assumption|]). split; [|split; [|split; [|split]]].
  - destruct (make_tree_html_written cur posts) as (Hshape & _ & ext & Hw & Hext).
    rewrite Hout, Hw in Hshape. injection Hshape as ->.
    exists (ext ++ repeat DivClose (length (pending posts cur))). split; [reflexivity|].
    apply Forall_app. split; [assumption|apply no_tree_open_repeat].
  - intros c p. apply format_line_opens.
  - reflexivity.
  - intros o1 o2 ->. apply render_app.
  - intros Hplain.
    destruct (make_tree_tag_count posts cur out Hout) as [Hdiv Hend].
    destruct (line_occurrences_plain cur posts Hplain) as [Ho Hc].
    split; [rewrite Hdiv, Ho; lia|]. split; [rewrite Hend, Hc; lia|].
    intros o1 c p o2 Hsplit.
    destruct (plain_prefix_tags cur posts out o1 c p o2 Hout Hplain Hsplit) as [-> ->].
    specialize (Hdepth o1 c p o2 Hsplit). unfold open_posts in Hdepth. lia.
Qed.

(** The amended C1 at the thread of the specification: a post [(1,6)]
    with the two replies [(2,3)] and [(4,5)]. *)
Lemma make_tree_well_formed_witness :
  let posts := [example_post 1 6 "welcome"; example_post 2 3 "re: welcome";
                example_post 4 5 "thanks"] in
  exists out text,
    make_tree_html posts None = Ok out /\
    make_tree (site := example_site) posts None = Ok text /\
    lines out = map (post_line None) posts /\
    occurrences "<div" text = 4%nat /\
    occurrences "</div>" text = 4%nat /\
    (forall o1 c p o2,
        out = o1 ++ PostLine c p :: o2 ->
        open_posts o1 = Z.of_nat (length (ancestors posts p))).
Proof.
  intros posts.
  destruct (make_tree_well_formed (site := example_site) posts None)
    as (out & text & Hout & Htext & Hlines & _ & _ & Hdepth & _ & _ & _ & _ & _ & Hplain).
  - unfold well_formed, posts, disjoint, contains.
    split; [repeat constructor|split; [repeat constructor; simpl; lia|]].
    repeat constructor; simpl; lia.
  - destruct Hplain as (Ho & Hc & _); [repeat constructor|].
    exists out, text. repeat split; assumption.
Defined.

End ForumTextSpec.
